(** * The docs provider of OpenCtx: result assembly and index loading

    A shallow embedding of [provider/docs/src/provider/provider.ts]:
    the [items] method (candidate selection, deduplication, common-suffix
    trimming, truncation of titles), its helpers [longestCommonSuffix],
    [truncate] and [isSearchResult], and the loader [fetchIndex].

    JavaScript strings are sequences of UTF-16 code units; [length],
    indexing and [slice] all count code units.  A string is therefore a
    list of code units, each a [Z]. *)

From stdpp Require Import gmap list strings.
From Stdlib Require Import ZArith DecimalString.

Local Open Scope Z_scope.

(** ** JavaScript strings *)

Abbreviation jsstring := (list Z).

(** An ASCII literal as a list of code units. *)
Fixpoint lit (s : string) : jsstring :=
  match s with
  | EmptyString => []
  | String a s' => Z.of_N (Ascii.N_of_ascii a) :: lit s'
  end.

(** [s.length] *)
Definition len (s : jsstring) : Z := Z.of_nat (length s).

(** [s[k]]: the code unit at index [k], [undefined] outside the string. *)
Definition at_index (s : jsstring) (k : Z) : option Z :=
  if k <? 0 then None else s !! Z.to_nat k.

(** An index argument of [slice], made relative to the string: a negative
    index counts from the end, and the result is clamped to [0, length]. *)
Definition relative_index (n : Z) (k : Z) : Z :=
  if k <? 0 then Z.max (n + k) 0 else Z.min k n.

(** [s.slice(start, end)] *)
Definition slice (s : jsstring) (start stop : Z) : jsstring :=
  let from := relative_index (len s) start in
  let to := relative_index (len s) stop in
  take (Z.to_nat (Z.max (to - from) 0)) (drop (Z.to_nat from) s).

(** A string in a condition: the empty string is falsy. *)
Definition truthy (s : jsstring) : bool :=
  match s with [] => false | _ :: _ => true end.

(** An optional string in a condition: [undefined], [null] and the empty
    string are falsy. *)
Definition truthy_opt (o : option jsstring) : bool :=
  match o with Some s => truthy s | None => false end.

(** [a || b] on optional strings. *)
Definition or_else (a b : option jsstring) : option jsstring :=
  if truthy_opt a then a else b.

(** [c + s] where [c] is the result of indexing a string: [undefined]
    is converted to the text "undefined". *)
Definition prepend (c : option Z) (s : jsstring) : jsstring :=
  match c with
  | Some u => u :: s
  | None => lit "undefined" ++ s
  end.

(** ** [truncate] (provider.ts, lines 123-128) *)

Definition truncate (text : jsstring) (maxLength : Z) : jsstring :=
  if len text >? maxLength then slice text 0 maxLength ++ lit "..."
  else text.

(** ** [longestCommonSuffix] (provider.ts, lines 96-121) *)

(** [Math.min(...texts.map(text => text.length))] for a non-empty array. *)
Definition minLength (text0 : jsstring) (texts : list jsstring) : Z :=
  foldr (fun text acc => Z.min (len text) acc) (len text0) texts.

(** The [for] loop of lines 107-118: [n] iterations remain, [i] is the
    loop counter, [suffix] the accumulator; the loop stops at the first
    position, counted from the end, where the texts disagree. *)
Fixpoint suffixLoop (texts : list jsstring) (text0 : jsstring)
    (n : nat) (i : Z) (suffix : jsstring) : jsstring :=
  match n with
  | O => suffix
  | S n' =>
      let currentChar := at_index text0 (len text0 - 1 - i) in
      if forallb (fun text =>
                    bool_decide (at_index text (len text - 1 - i) = currentChar))
                 texts
      then suffixLoop texts text0 n' (i + 1) (prepend currentChar suffix)
      else suffix
  end.

Definition longestCommonSuffix (texts : list jsstring) : jsstring :=
  match texts with
  | [] => []
  | [text0] => text0
  | text0 :: _ =>
      let minLen := minLength text0 texts in
      suffixLoop texts text0 (Z.to_nat minLen) 0 []
  end.

(** ** [String.prototype.trim] *)

(** The code units that [trim] removes: ECMAScript's WhiteSpace and
    LineTerminator. *)
Definition isWhiteSpace (c : Z) : bool :=
  ((9 <=? c) && (c <=? 13)) || (c =? 32) || (c =? 160) || (c =? 5760)
  || ((8192 <=? c) && (c <=? 8202)) || (c =? 8232) || (c =? 8233)
  || (c =? 8239) || (c =? 8287) || (c =? 12288) || (c =? 65279).

Fixpoint trimStart (s : jsstring) : jsstring :=
  match s with
  | c :: s' => if isWhiteSpace c then trimStart s' else s
  | [] => []
  end.

Definition trimEnd (s : jsstring) : jsstring := reverse (trimStart (reverse s)).

Definition trim (s : jsstring) : jsstring := trimEnd (trimStart s).

(** ** The data the provider reads *)

(** [DocID] is a number; it is the key of the set of seen documents. *)
Abbreviation DocID := Z.

Module Doc.
(** [Doc] of corpus/doc/doc.ts: the provider reads [id] and [url]. *)
Record t := mk { id : DocID; text : jsstring; url : option jsstring }.
End Doc.

Module Content.
(** The extracted content of a document.  The provider guards every
    read of [title] and [textContent], so both may be missing. *)
Record t := mk { title : option jsstring; textContent : option jsstring }.
End Content.

Module IndexedDoc.
(** A document of the corpus index; [content] may be [null]. *)
Record t := mk { doc : Doc.t; content : option Content.t }.
End IndexedDoc.

Module SearchResult.
(** A search result refers to its document by identifier. *)
Record t := mk { doc : DocID; chunk : Z; excerpt : jsstring }.
End SearchResult.

(** The corpus index as the provider uses it through the client: the
    listing [docs] and the lookup [doc], typed total in the index. *)
Record CorpusIndex := mkIndex {
  docs : list IndexedDoc.t;
  doc : DocID -> IndexedDoc.t
}.

(** An element of [results]: [SearchResult | IndexedDoc]. *)
Inductive candidate :=
  | OfSearch (r : SearchResult.t)
  | OfIndex (d : IndexedDoc.t).

Module Item.
Record Hover := mkHover { text : jsstring }.
Record UI := mkUI { hover : option Hover }.
Record AI := mkAI { content : option jsstring }.
(** An element of [ItemsResult]. *)
Record t := mk { title : jsstring; url : option jsstring; ui : UI; ai : AI }.
(** [r.title = v] *)
Definition set_title (r : t) (v : jsstring) : t :=
  mk v (url r) (ui r) (ai r).
End Item.

Module ItemsParams.
Record t := mk { query : option jsstring }.
End ItemsParams.

(** ** Calls to the search engine

    [client.search] is the one call [items] awaits.  A computation either
    returns, or asks the engine for the results of a query text and goes
    on with them. *)
Inductive Async (A : Type) : Type :=
  | Ret (a : A)
  | Search (text : jsstring) (k : list SearchResult.t -> Async A).
Arguments Ret {A} a.
Arguments Search {A} text k.

Fixpoint bind {A B : Type} (m : Async A) (f : A -> Async B) : Async B :=
  match m with
  | Ret a => f a
  | Search text k => Search text (fun rs => bind (k rs) f)
  end.

#[global] Instance Async_ret : MRet Async := @Ret.
#[global] Instance Async_bind : MBind Async := fun A B f m => bind m f.

(** Running a computation against an engine: the value returned and the
    query texts the engine was called with, in order. *)
Fixpoint run {A : Type} (engine : jsstring -> list SearchResult.t)
    (m : Async A) : A * list jsstring :=
  match m with
  | Ret a => (a, [])
  | Search text k =>
      let '(a, calls) := run engine (k (engine text)) in (a, text :: calls)
  end.

(** ** [isSearchResult] (provider.ts, lines 78-80)

    ['doc' in value && typeof value.doc === 'number']: both shapes have a
    [doc] field, a number in a search result and a [Doc] object in an
    indexed document. *)
Definition isSearchResult (value : candidate) : bool :=
  match value with
  | OfSearch _ => true
  | OfIndex _ => false
  end.

(** ** [items] (provider.ts, lines 26-74) *)

(** Line 33: the document of a candidate. *)
Definition resolve (client : CorpusIndex) (result : candidate) : IndexedDoc.t :=
  match result with
  | OfSearch r => doc client (SearchResult.doc r)
  | OfIndex d => d
  end.

(** Line 40: [doc.content?.title || doc.doc?.url || 'Untitled'] *)
Definition itemTitle (d : IndexedDoc.t) : jsstring :=
  let title := IndexedDoc.content d ≫= Content.title in
  let url := Doc.url (IndexedDoc.doc d) in
  match or_else (or_else title url) (Some (lit "Untitled")) with
  | Some s => s
  | None => []
  end.

(** Lines 39-50: the item pushed for a document. *)
Definition makeItem (d : IndexedDoc.t) : Item.t :=
  let textContent := IndexedDoc.content d ≫= Content.textContent in
  {| Item.title := itemTitle d;
     Item.url := Doc.url (IndexedDoc.doc d);
     Item.ui :=
       {| Item.hover :=
            match textContent with
            | Some s =>
                if truthy s then Some {| Item.text := truncate s 200 |}
                else None
            | None => None
            end |};
     Item.ai := {| Item.content := textContent |} |}.

(** Lines 30-51: the loop over [results], with the set [seenDocIDs] and
    the array [items] as its state. *)
Fixpoint collect (client : CorpusIndex) (results : list candidate)
    (seenDocIDs : gset Z) (items : list Item.t) : list Item.t :=
  match results with
  | [] => items
  | result :: rest =>
      let d := resolve client result in
      if decide (Doc.id (IndexedDoc.doc d) ∈ seenDocIDs)
      then collect client rest seenDocIDs items
      else collect client rest ({[Doc.id (IndexedDoc.doc d)]} ∪ seenDocIDs)
             (items ++ [makeItem d])
  end.

(** Lines 53-65: trimming the suffix common to all titles. *)
Definition trimCommonSuffix (items : list Item.t) : list Item.t :=
  if Z.of_nat (length items) >=? 2 then
    let suffix := longestCommonSuffix (Item.title <$> items) in
    if truthy suffix then
      (fun r =>
         if len (Item.title r) >=? len suffix + 10
         then Item.set_title r (slice (Item.title r) 0 (-1 * len suffix))
         else r) <$> items
    else items
  else items.

(** Lines 67-71: truncating every title. *)
Definition truncateTitles (items : list Item.t) : list Item.t :=
  (fun r => Item.set_title r (truncate (Item.title r) 50)) <$> items.

(** Lines 30-73: the items returned for the candidates [results]. *)
Definition assemble (client : CorpusIndex) (results : list candidate)
    : list Item.t :=
  truncateTitles (trimCommonSuffix (collect client results ∅ [])).

(** Lines 27-28: the candidates, from the engine or from the listing. *)
Definition selectResults (client : CorpusIndex) (params : ItemsParams.t)
    : Async (list candidate) :=
  let query := trim <$> ItemsParams.query params in
  match query with
  | Some q =>
      if truthy q then Search q (fun rs => Ret (OfSearch <$> rs))
      else Ret (OfIndex <$> docs client)
  | None => Ret (OfIndex <$> docs client)
  end.

Definition items (client : CorpusIndex) (params : ItemsParams.t)
    : Async (list Item.t) :=
  results ← selectResults client params;
  mret (assemble client results).

(** ** [fetchIndex] (provider.ts, lines 82-94) *)

(** A thrown value: an error object with its name and message. *)
Record JsError := mkError { name : jsstring; message : jsstring }.

(** The outcome of a call that may throw or reject. *)
Inductive outcome (A : Type) : Type :=
  | Returns (a : A)
  | Throws (e : JsError).
Arguments Returns {A} a.
Arguments Throws {A} e.

Definition andThen {A B : Type} (m : outcome A) (f : A -> outcome B)
    : outcome B :=
  match m with
  | Returns a => f a
  | Throws e => Throws e
  end.

#[global] Instance outcome_ret : MRet outcome := @Returns.
#[global] Instance outcome_bind : MBind outcome := fun A B f m => andThen m f.

(** What [fetchIndex] reads of a parsed [URL]. *)
Record URL := mkURL { protocol : jsstring; pathname : jsstring }.

(** What [fetchIndex] reads of a [Response]; [json] is the outcome of
    [resp.json()]. *)
Record Response (J : Type) := mkResponse {
  ok : bool;
  status : Z;
  json : outcome J
}.
Arguments mkResponse {J} ok status json.
Arguments ok {J} r.
Arguments status {J} r.
Arguments json {J} r.

(** The platform and library functions [fetchIndex] calls, none of them
    part of the provider: the [URL] constructor, [readFile], [JSON.parse],
    [fetch], and [fromJSON] of the corpus index.  [J] is the type of
    parsed JSON values. *)
Record Runtime (J : Type) := mkRuntime {
  new_URL : jsstring -> outcome URL;
  readFile : jsstring -> outcome jsstring;
  JSON_parse : jsstring -> outcome J;
  fetch : jsstring -> outcome (Response J);
  fromJSON : J -> outcome CorpusIndex
}.
Arguments mkRuntime {J} new_URL readFile JSON_parse fetch fromJSON.
Arguments new_URL {J} r urlStr.
Arguments readFile {J} r path.
Arguments JSON_parse {J} r text.
Arguments fetch {J} r urlStr.
Arguments fromJSON {J} r data.

(** An integer in a template literal: its decimal digits. *)
Definition numberToString (n : Z) : jsstring :=
  lit (NilZero.string_of_int (Z.to_int n)).

(** The message of line 91. *)
Definition fetchFailedMessage (urlStr : jsstring) (status : Z) : jsstring :=
  lit "Failed to fetch corpus index from " ++ urlStr
  ++ lit " with HTTP status " ++ numberToString status.

Definition fetchIndex {J : Type} (rt : Runtime J) (urlStr : jsstring)
    : outcome CorpusIndex :=
  url ← new_URL rt urlStr;
  if bool_decide (protocol url = lit "file:") then
    text ← readFile rt (pathname url);
    data ← JSON_parse rt text;
    fromJSON rt data
  else
    resp ← fetch rt urlStr;
    if negb (ok resp) then
      Throws {| name := lit "Error";
                message := fetchFailedMessage urlStr (status resp) |}
    else
      data ← json resp;
      fromJSON rt data.

(** * Definitions for the statements

    What follows is not code of the provider: the functions and
    predicates the theorems are stated with, and the sample data they
    are tried on. *)

(** The test of line 112 fails at position [j] from the end: some text
    disagrees there with the first one. *)
Definition disagree (texts : list jsstring) (text0 : jsstring) (j : nat)
    : Prop :=
  exists t, t ∈ texts /\
    t !! (length t - 1 - j)%nat <> text0 !! (length text0 - 1 - j)%nat.

(** What line 60-62 does to an item, given the suffix [s]: the last
    [length s] characters go when the title has at least [len s + 10]. *)
Definition trimmed (s : jsstring) (r : Item.t) : Item.t :=
  if decide (len s + 10 <= len (Item.title r))
  then Item.set_title r
         (take (length (Item.title r) - length s) (Item.title r))
  else r.

(** [doc.doc.id] *)
Definition docId (d : IndexedDoc.t) : DocID := Doc.id (IndexedDoc.doc d).

(** The documents of a list restricted to the first occurrence of each
    identifier: a document stays, and removes every later document with
    its identifier. *)
Fixpoint firstOccurrences (ds : list IndexedDoc.t) : list IndexedDoc.t :=
  match ds with
  | [] => []
  | d :: ds' =>
      d :: filter (fun d' => docId d' <> docId d) (firstOccurrences ds')
  end.

(** [d] is at index [i] of [ds] and no earlier document has its
    identifier. *)
Definition firstAt (ds : list IndexedDoc.t) (i : nat) (d : IndexedDoc.t)
    : Prop :=
  ds !! i = Some d /\
  forall (j : nat) d', (j < i)%nat -> ds !! j = Some d' -> docId d' <> docId d.

(** The fields of an item that the passes over the titles leave alone. *)
Definition otherFields (r : Item.t)
    : option jsstring * Item.UI * Item.AI :=
  (Item.url r, Item.ui r, Item.ai r).

(** What [truncate] does with the limit 50, case by case. *)
Definition clamped50 (t : jsstring) : jsstring :=
  if decide (len t <= 50) then t else take 50 t ++ lit "...".

(** [doc.content?.title] and [doc.content?.textContent] *)
Definition docTitle (d : IndexedDoc.t) : option jsstring :=
  IndexedDoc.content d ≫= Content.title.

Definition docText (d : IndexedDoc.t) : option jsstring :=
  IndexedDoc.content d ≫= Content.textContent.

Definition docUrl (d : IndexedDoc.t) : option jsstring :=
  Doc.url (IndexedDoc.doc d).

(** The title as the specification words it: the document's title if
    present and non-empty, else the URL if present, else "Untitled". *)
Definition titleAsSpecified (d : IndexedDoc.t) : jsstring :=
  match docTitle d with
  | Some (c :: t) => c :: t
  | _ =>
      match docUrl d with
      | Some u => u
      | None => lit "Untitled"
      end
  end.

(** The title the code gives: an empty URL is passed over as well. *)
Definition titleOf (d : IndexedDoc.t) : jsstring :=
  match docTitle d with
  | Some (c :: t) => c :: t
  | _ =>
      match docUrl d with
      | Some (c :: u) => c :: u
      | _ => lit "Untitled"
      end
  end.

(** The first 200 characters, with "..." when there are more. *)
Definition clamped200 (s : jsstring) : jsstring :=
  if decide (len s <= 200) then s else take 200 s ++ lit "...".

(** The preview as the specification words it: present exactly when
    the text content is present. *)
Definition previewAsSpecified (d : IndexedDoc.t) : option Item.Hover :=
  match docText d with
  | Some s => Some {| Item.text := clamped200 s |}
  | None => None
  end.

(** The preview the code gives: none for an empty text either. *)
Definition previewOf (d : IndexedDoc.t) : option Item.Hover :=
  match docText d with
  | Some (c :: s) => Some {| Item.text := clamped200 (c :: s) |}
  | _ => None
  end.

(** A document with an empty URL and no content. *)
Definition emptyUrlDoc : IndexedDoc.t :=
  IndexedDoc.mk (Doc.mk 1 (lit "text") (Some [])) None.

(** A document whose text content is the empty string. *)
Definition emptyTextDoc : IndexedDoc.t :=
  IndexedDoc.mk (Doc.mk 1 [] (Some (lit "https://example.com/a")))
    (Some (Content.mk (Some (lit "A page")) (Some []))).

(** A document with neither content nor URL. *)
Definition bareDoc : IndexedDoc.t :=
  IndexedDoc.mk (Doc.mk 7 (lit "text") None) None.

(** The em dash, one UTF-16 code unit. *)
Definition emDash : Z := 8212.

Definition installTitle : jsstring := lit "Install " ++ [emDash] ++ lit " Foo Docs".
Definition configureTitle : jsstring :=
  lit "Configure " ++ [emDash] ++ lit " Foo Docs".
Definition fooSuffix : jsstring := lit " " ++ [emDash] ++ lit " Foo Docs".

Definition titledDoc (id : DocID) (title : jsstring) : IndexedDoc.t :=
  IndexedDoc.mk (Doc.mk id [] None) (Some (Content.mk (Some title) None)).

Definition fooIndex : CorpusIndex :=
  let d1 := titledDoc 1 installTitle in
  let d2 := titledDoc 2 configureTitle in
  mkIndex [d1; d2] (fun id => if decide (id = 2) then d2 else d1).

Definition noResults (text : jsstring) : list SearchResult.t := [].

Definition plainItem (title : jsstring) : Item.t :=
  Item.mk title None (Item.mkUI None) (Item.mkAI None).

(** Two long titles with the site's name at the end. *)
Definition longItems : list Item.t :=
  [plainItem (replicate 60 97 ++ lit " - Site");
   plainItem (replicate 60 98 ++ lit " - Site")].

Definition sampleA : Item.t := plainItem (lit "Getting started - My Doc Site").
Definition sampleB : Item.t := plainItem (lit "API - My Doc Site").

Definition sampleResults : list candidate :=
  [OfIndex (titledDoc 1 installTitle);
   OfSearch (SearchResult.mk 1 0 []);
   OfSearch (SearchResult.mk 2 0 []);
   OfIndex (titledDoc 1 installTitle)].

(** The network schemes the specification names. *)
Definition networkScheme (p : jsstring) : Prop :=
  p = lit "http:" \/ p = lit "https:".

Definition emptyIndex : CorpusIndex := mkIndex [] (fun _ => bareDoc).

Definition typeError (message : jsstring) : JsError :=
  {| name := lit "TypeError"; message := message |}.

(** A locator with the scheme [data:], which [fetch] serves itself. *)
Definition dataLocator : jsstring := lit "data:application/json,{}".

Definition dataURL : URL := mkURL (lit "data:") (lit "application/json,{}").

(** A runtime that knows the data locator, and whose [fetch] answers it
    with a successful response. *)
Definition dataRuntime : Runtime unit :=
  mkRuntime
    (fun urlStr =>
       if decide (urlStr = dataLocator) then Returns dataURL
       else Throws (typeError (lit "Invalid URL")))
    (fun path => Throws (mkError (lit "Error") (lit "ENOENT")))
    (fun text => Returns ())
    (fun urlStr =>
       if decide (urlStr = dataLocator)
       then Returns (mkResponse true 200 (Returns ()))
       else Throws (typeError (lit "fetch failed")))
    (fun data => Returns emptyIndex).

Definition httpsLocator : jsstring := lit "https://example.com/index.json".

(** A runtime whose [fetch] answers every locator with status 404. *)
Definition notFoundRuntime : Runtime unit :=
  mkRuntime
    (fun urlStr => Returns (mkURL (lit "https:") (lit "/index.json")))
    (fun path => Throws (mkError (lit "Error") (lit "ENOENT")))
    (fun text => Returns ())
    (fun urlStr =>
       Returns (mkResponse false 404
                  (Throws (mkError (lit "SyntaxError") (lit "Unexpected token")))))
    (fun data => Returns emptyIndex).

(** [s] is a suffix of every text. *)
Definition commonSuffix (texts : list jsstring) (s : jsstring) : Prop :=
  forall t, t ∈ texts -> s `suffix_of` t.

(** A text without its last [n] characters. *)
Definition dropEnd (n : nat) (t : jsstring) : jsstring :=
  take (length t - n) t.

(** The locator of a local file. *)
Definition fileLocator : jsstring := lit "file:///srv/docs/index.json".

(** A runtime with one file, whose [fetch] fails. *)
Definition fileRuntime : Runtime unit :=
  mkRuntime
    (fun urlStr => Returns (mkURL (lit "file:") (lit "/srv/docs/index.json")))
    (fun path =>
       if decide (path = lit "/srv/docs/index.json") then Returns (lit "{}")
       else Throws (mkError (lit "Error") (lit "ENOENT")))
    (fun text => Returns ())
    (fun urlStr => Throws (typeError (lit "fetch failed")))
    (fun data => Returns emptyIndex).

(** * Strings *)

Section strings.
Implicit Types s t : jsstring.

Lemma len_nonneg s : 0 <= len s.
Proof. unfold len. lia. Qed.

Lemma len_app s t : len (s ++ t) = len s + len t.
Proof. unfold len. rewrite length_app. lia. Qed.

Lemma truthy_true s : truthy s = true <-> s <> [].
Proof. destruct s; simpl; split; congruence. Qed.

Lemma truthy_false s : truthy s = false <-> s = [].
Proof. destruct s; simpl; split; congruence. Qed.

Lemma slice_prefix s n : 0 <= n -> slice s 0 n = take (Z.to_nat n) s.
Proof.
  intros Hn. unfold slice, relative_index, len.
  destruct (0 <? 0) eqn:E0; [lia|].
  destruct (n <? 0) eqn:En; [lia|].
  replace (Z.to_nat (Z.min 0 (Z.of_nat (length s)))) with O by lia.
  rewrite drop_0.
  destruct (decide (n <= Z.of_nat (length s))) as [Hle|Hgt].
  - f_equal. lia.
  - rewrite !take_ge; [done|lia..].
Qed.

Lemma slice_drop_end s k :
  0 < k -> slice s 0 (-1 * k) = take (length s - Z.to_nat k) s.
Proof.
  intros Hk. unfold slice, relative_index, len.
  destruct (0 <? 0) eqn:E0; [lia|].
  destruct (-1 * k <? 0) eqn:En; [|lia].
  replace (Z.to_nat (Z.min 0 (Z.of_nat (length s)))) with O by lia.
  rewrite drop_0. f_equal. lia.
Qed.

Lemma at_index_from_end t (i : nat) :
  (i < length t)%nat ->
  at_index t (len t - 1 - Z.of_nat i) = t !! (length t - 1 - i)%nat.
Proof.
  intros Hi. unfold at_index, len.
  destruct (_ <? 0) eqn:E; [lia|]. f_equal. lia.
Qed.

Lemma drop_from_end_S t (i : nat) c :
  (i < length t)%nat ->
  t !! (length t - 1 - i)%nat = Some c ->
  drop (length t - S i) t = c :: drop (length t - i) t.
Proof.
  intros Hi Hc.
  replace (length t - S i)%nat with (length t - 1 - i)%nat by lia.
  rewrite (drop_S _ _ _ Hc). f_equal. f_equal. lia.
Qed.

Lemma suffix_drop s t :
  s `suffix_of` t -> drop (length t - length s) t = s.
Proof.
  intros [k ->]. rewrite length_app.
  replace (length k + length s - length s)%nat with (length k) by lia.
  by rewrite drop_app_length.
Qed.

Lemma drop_suffix (n : nat) t : drop n t `suffix_of` t.
Proof. exists (take n t). by rewrite take_drop. Qed.

Lemma suffix_lookup_from_end s t (j : nat) :
  s `suffix_of` t -> (j < length s)%nat ->
  t !! (length t - 1 - j)%nat = s !! (length s - 1 - j)%nat.
Proof.
  intros [k ->] Hj. rewrite length_app.
  rewrite lookup_app_r by lia. f_equal. lia.
Qed.
End strings.

Example truncate_short : truncate (lit "abc") 5 = lit "abc".
Proof. reflexivity. Qed.

Example truncate_long : truncate (lit "abcdefgh") 5 = lit "abcde...".
Proof. reflexivity. Qed.

Example slice_negative_end : slice (lit "Intro - Site") 0 (-7) = lit "Intro".
Proof. reflexivity. Qed.

Example trim_both_ends : trim (lit "  api docs  ") = lit "api docs".
Proof. reflexivity. Qed.

Example longestCommonSuffix_three :
  longestCommonSuffix [lit "Intro - Site"; lit "Usage - Site"; lit "API - Site"]
  = lit " - Site".
Proof. reflexivity. Qed.

(** * The longest common suffix *)

Section longest_common_suffix.
Implicit Types (t s : jsstring) (texts : list jsstring).

Lemma minLength_le_base text0 texts : minLength text0 texts <= len text0.
Proof. induction texts as [|t texts IH]; simpl; lia. Qed.

Lemma minLength_le text0 texts t :
  t ∈ texts -> minLength text0 texts <= len t.
Proof.
  induction 1 as [t texts|t t' texts _ IH]; simpl; lia.
Qed.

Lemma minLength_glb text0 texts z :
  z <= len text0 -> (forall t, t ∈ texts -> z <= len t) ->
  z <= minLength text0 texts.
Proof.
  intros H0. induction texts as [|t texts IH]; simpl; intros H; [done|].
  apply Z.min_glb.
  - apply H. left.
  - apply IH. intros t' Ht'. apply H. by right.
Qed.

Lemma forallb_false {A} (f : A -> bool) (l : list A) :
  forallb f l = false -> exists x, x ∈ l /\ f x = false.
Proof.
  induction l as [|x l IH]; simpl; [done|].
  destruct (f x) eqn:Hx; simpl.
  - intros (y & Hy & Hfy)%IH. exists y. split; [by right|done].
  - intros _. exists x. split; [left|done].
Qed.

Lemma every_agree texts text0 (i : nat) :
  (forall t, t ∈ texts -> (i < length t)%nat) ->
  (i < length text0)%nat ->
  forallb (fun text =>
             bool_decide (at_index text (len text - 1 - Z.of_nat i)
                          = at_index text0 (len text0 - 1 - Z.of_nat i)))
          texts = true
  <-> forall t, t ∈ texts ->
        t !! (length t - 1 - i)%nat = text0 !! (length text0 - 1 - i)%nat.
Proof.
  intros Hlen H0. rewrite forallb_forall. split.
  - intros H t Ht. specialize (H t). rewrite <- list_elem_of_In in H.
    specialize (H Ht). apply bool_decide_eq_true in H.
    by rewrite !at_index_from_end in H by auto.
  - intros H t Ht. rewrite <- list_elem_of_In in Ht.
    apply bool_decide_eq_true. rewrite !at_index_from_end by auto. auto.
Qed.

(** The loop computes the last [j] characters of every text, for some
    [j] at which it either ran out of iterations or met a disagreement. *)
Lemma suffixLoop_spec texts text0 (n i : nat) suffix :
  text0 ∈ texts ->
  (forall t, t ∈ texts ->
     (i + n <= length t)%nat /\ drop (length t - i) t = suffix) ->
  exists j : nat,
    (i <= j <= i + n)%nat /\
    (forall t, t ∈ texts ->
       drop (length t - j) t
       = suffixLoop texts text0 n (Z.of_nat i) suffix) /\
    (j = (i + n)%nat \/ disagree texts text0 j).
Proof.
  intros H0. revert i suffix.
  induction n as [|n IH]; intros i suffix Hinv.
  - exists i. simpl. split; [lia|]. split; [|left; lia].
    intros t Ht. by apply Hinv.
  - cbn [suffixLoop].
    assert (Hlt : forall t, t ∈ texts -> (i < length t)%nat).
    { intros t Ht. destruct (Hinv t Ht). lia. }
    destruct (forallb _ texts) eqn:Hall.
    + rewrite every_agree in Hall by auto.
      destruct (lookup_lt_is_Some_2 text0 (length text0 - 1 - i)%nat)
        as [c Hc]; [specialize (Hlt _ H0); lia|].
      rewrite at_index_from_end by auto. rewrite Hc. simpl.
      replace (Z.of_nat i + 1) with (Z.of_nat (S i)) by lia.
      destruct (IH (S i) (c :: suffix)) as (j & Hj & Hdrop & Hstop).
      { intros t Ht. destruct (Hinv t Ht) as [Hl Hd]. split; [lia|].
        rewrite <- Hd. apply drop_from_end_S; [auto|].
        by rewrite Hall. }
      exists j. split; [lia|]. split; [done|].
      destruct Hstop as [->|Hdis]; [left; lia|by right].
    + exists i. split; [lia|]. split; [intros t Ht; by apply Hinv|].
      right. apply forallb_false in Hall as (t & Ht & Hne).
      exists t. split; [done|].
      apply bool_decide_eq_false in Hne.
      by rewrite !at_index_from_end in Hne by auto.
Qed.
Lemma longestCommonSuffix_loop text0 text1 rest :
  let texts := text0 :: text1 :: rest in
  exists j : nat,
    (forall t, t ∈ texts -> (j <= length t)%nat) /\
    (forall t, t ∈ texts ->
       drop (length t - j) t = longestCommonSuffix texts) /\
    (j = Z.to_nat (minLength text0 texts) \/ disagree texts text0 j).
Proof.
  intros texts.
  assert (Hmin : forall t, t ∈ texts ->
            (Z.to_nat (minLength text0 texts) <= length t)%nat).
  { intros t Ht. pose proof (minLength_le text0 texts t Ht) as H.
    unfold len in H. lia. }
  destruct (suffixLoop_spec texts text0
              (Z.to_nat (minLength text0 texts)) 0 [])
    as (j & Hj & Hdrop & Hstop).
  { left. }
  { intros t Ht. split; [by apply Hmin|].
    rewrite Nat.sub_0_r. by rewrite drop_all. }
  exists j. split; [|split].
  - intros t Ht. specialize (Hmin t Ht). lia.
  - exact Hdrop.
  - destruct Hstop as [->|?]; [left; lia|by right].
Qed.

(** The result is a suffix of every text. *)
Lemma longestCommonSuffix_suffix texts t :
  t ∈ texts -> longestCommonSuffix texts `suffix_of` t.
Proof.
  destruct texts as [|text0 [|text1 rest]].
  - by intros ?%elem_of_nil.
  - by intros ->%list_elem_of_singleton.
  - intros Ht.
    destruct (longestCommonSuffix_loop text0 text1 rest)
      as (j & _ & Hdrop & _).
    rewrite <- (Hdrop t Ht). apply drop_suffix.
Qed.

(** Every common suffix of the texts is a suffix of the result. *)
Lemma longestCommonSuffix_longest texts s :
  texts <> [] ->
  (forall t, t ∈ texts -> s `suffix_of` t) ->
  s `suffix_of` longestCommonSuffix texts.
Proof.
  destruct texts as [|text0 [|text1 rest]]; [done|..]; intros _ Hs.
  - apply Hs. left.
  - destruct (longestCommonSuffix_loop text0 text1 rest)
      as (j & Hjlen & Hdrop & Hstop).
    set (texts := text0 :: text1 :: rest) in *.
    assert (H0 : text0 ∈ texts) by left.
    assert (Hle : (length s <= j)%nat).
    { destruct (decide (length s <= j)%nat) as [|Hgt]; [done|exfalso].
      destruct Hstop as [->|(t & Ht & Hne)].
      - apply Hgt.
        assert (Z.of_nat (length s) <= minLength text0 texts); [|lia].
        apply minLength_glb.
        + pose proof (suffix_length _ _ (Hs text0 H0)). unfold len. lia.
        + intros t Ht. unfold len.
          pose proof (suffix_length _ _ (Hs t Ht)). lia.
      - apply Hne.
        rewrite (suffix_lookup_from_end s t j) by (auto; lia).
        by rewrite (suffix_lookup_from_end s text0 j) by (auto; lia). }
    rewrite <- (Hdrop text0 H0).
    rewrite <- (suffix_drop s text0 (Hs text0 H0)).
    pose proof (Hjlen text0 H0).
    replace (length text0 - length s)%nat
      with ((length text0 - j) + (j - length s))%nat by lia.
    rewrite <- drop_drop. apply drop_suffix.
Qed.

Lemma longestCommonSuffix_length texts t :
  t ∈ texts -> len (longestCommonSuffix texts) <= len t.
Proof.
  intros Ht. unfold len.
  pose proof (suffix_length _ _ (longestCommonSuffix_suffix texts t Ht)).
  lia.
Qed.
End longest_common_suffix.

(** * Trimming the common suffix *)

Section trimming.
Implicit Types (r : Item.t) (items : list Item.t) (s : jsstring).

Lemma set_title_same r : Item.set_title r (Item.title r) = r.
Proof. by destruct r. Qed.

Lemma trimmed_nil r : trimmed [] r = r.
Proof.
  unfold trimmed. case_decide; [|done].
  simpl. rewrite Nat.sub_0_r, take_ge by lia. apply set_title_same.
Qed.

Lemma trim_step s r :
  s <> [] ->
  (if len (Item.title r) >=? len s + 10
   then Item.set_title r (slice (Item.title r) 0 (-1 * len s))
   else r) = trimmed s r.
Proof.
  intros Hs. unfold trimmed.
  assert (0 < len s) by (destruct s; [done|unfold len; simpl; lia]).
  destruct (Z.geb_spec (len (Item.title r)) (len s + 10));
    case_decide; try lia; [|done].
  rewrite slice_drop_end by done. unfold len. by rewrite Nat2Z.id.
Qed.

(** With two items or more, every item is treated by [trimmed] with
    the longest common suffix of the titles. *)
Lemma trimCommonSuffix_many r1 r2 rest :
  let items := r1 :: r2 :: rest in
  trimCommonSuffix items
  = trimmed (longestCommonSuffix (Item.title <$> items)) <$> items.
Proof.
  intros items. unfold trimCommonSuffix.
  destruct (Z.geb_spec (Z.of_nat (length items)) 2) as [_|E];
    [|unfold items in E; cbn [length] in E; lia].
  set (s := longestCommonSuffix _).
  destruct (truthy s) eqn:Hs.
  - apply truthy_true in Hs. apply list_fmap_ext.
    intros _ r _. by apply trim_step.
  - apply truthy_false in Hs. rewrite Hs.
    rewrite (list_fmap_ext _ id items); [by rewrite list_fmap_id|].
    intros _ r _. apply trimmed_nil.
Qed.

Lemma trimCommonSuffix_few items :
  (length items < 2)%nat -> trimCommonSuffix items = items.
Proof.
  intros H. unfold trimCommonSuffix.
  destruct (Z.geb_spec (Z.of_nat (length items)) 2); [lia|done].
Qed.

(** In every case the step is [trimmed s] for some [s]. *)
Lemma trimCommonSuffix_trimmed items :
  exists s, trimCommonSuffix items = trimmed s <$> items.
Proof.
  destruct items as [|r1 [|r2 rest]].
  - by exists [].
  - exists []. simpl. by rewrite trimmed_nil.
  - eexists. apply trimCommonSuffix_many.
Qed.
End trimming.

(** C1. With two items or more, the string [S] that the trimming step
    computes is the longest common suffix of the titles: it is a suffix of
    every title, and every string that is a suffix of every title is a
    suffix of [S].  The step removes exactly the last [len S] characters,
    which spell [S], from each item whose title has at least [len S + 10]
    characters, and leaves every other item as it is; when [S] is empty
    the step changes nothing.  With fewer than two items the step does
    not run. *)
Theorem C1_suffix_trimming (r1 r2 : Item.t) (rest : list Item.t) :
  let items := r1 :: r2 :: rest in
  let S := longestCommonSuffix (Item.title <$> items) in
  (forall r, r ∈ items -> S `suffix_of` Item.title r) /\
  (forall s, (forall r, r ∈ items -> s `suffix_of` Item.title r) ->
             s `suffix_of` S) /\
  trimCommonSuffix items = trimmed S <$> items /\
  (forall r, r ∈ items -> len S + 10 <= len (Item.title r) ->
     Item.title r = Item.title (trimmed S r) ++ S /\
     len (Item.title (trimmed S r)) = len (Item.title r) - len S /\
     Item.url (trimmed S r) = Item.url r /\
     Item.ui (trimmed S r) = Item.ui r /\
     Item.ai (trimmed S r) = Item.ai r) /\
  (forall r, r ∈ items -> len (Item.title r) < len S + 10 ->
     trimmed S r = r) /\
  (S = [] -> trimCommonSuffix items = items) /\
  trimCommonSuffix [] = [] /\
  trimCommonSuffix [r1] = [r1].
Proof.
  intros items S.
  assert (Hsuf : forall r, r ∈ items -> S `suffix_of` Item.title r).
  { intros r Hr. apply longestCommonSuffix_suffix.
    by apply list_elem_of_fmap_2. }
  split; [exact Hsuf|]. split; [|split; [|split; [|split; [|split]]]].
  - intros s Hs. apply longestCommonSuffix_longest; [done|].
    intros t (r & -> & Hr)%list_elem_of_fmap. by apply Hs.
  - apply trimCommonSuffix_many.
  - intros r Hr Hlen. unfold trimmed. rewrite decide_True by done.
    destruct r as [title url ui ai]. simpl in *.
    destruct (Hsuf _ Hr) as [k Hk]. simpl in Hk. subst title.
    rewrite length_app, Nat.add_sub, take_app_length.
    split; [done|]. split; [|done].
    unfold len. rewrite length_app. lia.
  - intros r Hr Hlen. unfold trimmed. by rewrite decide_False by lia.
  - intros HS. unfold items at 1.
    rewrite (trimCommonSuffix_many r1 r2 rest). fold items. fold S. rewrite HS.
    rewrite (list_fmap_ext _ id items); [by rewrite list_fmap_id|].
    intros _ r _. apply trimmed_nil.
  - done.
Qed.

(** C1 on two titles that end with the site's name: the longer one
    loses the suffix, the shorter one is kept. *)
Lemma C1_suffix_trimming_witness :
  let items := [sampleA; sampleB] in
  let S := longestCommonSuffix (Item.title <$> items) in
  trimCommonSuffix items = trimmed S <$> items /\
  lit "Doc Site" `suffix_of` S /\
  Item.title sampleA = Item.title (trimmed S sampleA) ++ S /\
  trimmed S sampleB = sampleB.
Proof.
  intros items S.
  destruct (C1_suffix_trimming sampleA sampleB [])
    as (_ & Hmax & Heq & Hcut & Hkeep & _).
  split; [exact Heq|]. split; [|split].
  - apply Hmax. intros r Hr.
    apply elem_of_cons in Hr as [->|Hr];
      [by exists (lit "Getting started - My ")|].
    apply list_elem_of_singleton in Hr as ->. by exists (lit "API - My ").
  - apply Hcut; [left|]. vm_compute. discriminate.
  - apply Hkeep; [right; left|]. vm_compute. reflexivity.
Defined.

(** * Deduplication *)

Lemma isSearchResult_OfSearch (value : candidate) :
  isSearchResult value = true <-> exists r, value = OfSearch r.
Proof.
  destruct value as [r|d]; simpl; split; try done.
  - by exists r.
  - by intros [r Hr].
Qed.

Lemma resolve_isSearchResult (client : CorpusIndex) (value : candidate) :
  if isSearchResult value
  then exists r, value = OfSearch r
       /\ resolve client value = doc client (SearchResult.doc r)
  else value = OfIndex (resolve client value).
Proof. destruct value as [r|d]; simpl; [by exists r|done]. Qed.

Section dedup.
Context (client : CorpusIndex).
Implicit Types (d : IndexedDoc.t) (ds : list IndexedDoc.t)
  (seen : gset Z) (items : list Item.t).

(** The loop appends the items of the first occurrences that are not
    in the set already. *)
Lemma collect_spec results seen items :
  collect client results seen items
  = items ++ (makeItem <$>
                filter (fun d => docId d ∉ seen)
                  (firstOccurrences (resolve client <$> results))).
Proof.
  revert seen items.
  induction results as [|result rest IH]; intros seen items.
  - simpl. by rewrite app_nil_r.
  - cbn [collect fmap list_fmap firstOccurrences].
    generalize (resolve client result). intros d. fold (docId d).
    case_decide as Hseen.
    + rewrite filter_cons_False by tauto.
      rewrite list_filter_filter, IH. do 2 f_equal.
      apply list_filter_iff. intros d'. split; [|tauto].
      intros Hd'. split; [done|]. intros Heq. apply Hd'. by rewrite Heq.
    + rewrite filter_cons_True by done.
      rewrite list_filter_filter, IH, <- app_assoc.
      simpl. do 3 f_equal.
      apply list_filter_iff. intros d'.
      rewrite not_elem_of_union, not_elem_of_singleton. tauto.
Qed.

Lemma filter_all {A} (P : A -> Prop) `{!forall x, Decision (P x)}
    (l : list A) :
  (forall x, x ∈ l -> P x) -> filter P l = l.
Proof.
  induction l as [|x l IH]; intros Hall; [done|].
  rewrite filter_cons_True by (apply Hall; left).
  rewrite IH; [done|]. intros y Hy. apply Hall. by right.
Qed.

Lemma collect_firstOccurrences results :
  collect client results ∅ []
  = makeItem <$> firstOccurrences (resolve client <$> results).
Proof.
  rewrite collect_spec. simpl. f_equal. apply filter_all.
  intros d _. apply not_elem_of_empty.
Qed.

Lemma firstOccurrences_sublist ds : firstOccurrences ds `sublist_of` ds.
Proof.
  induction ds as [|d ds IH]; simpl; [done|].
  apply sublist_skip. etrans; [apply sublist_filter|done].
Qed.

Lemma firstOccurrences_NoDup ds : NoDup (docId <$> firstOccurrences ds).
Proof.
  induction ds as [|d ds IH]; simpl; [constructor|].
  constructor.
  - intros (d' & Heq & Hd')%list_elem_of_fmap.
    apply list_elem_of_filter in Hd' as [Hne _]. by apply Hne.
  - eapply sublist_NoDup; [exact IH|].
    apply fmap_sublist, sublist_filter.
Qed.

Lemma firstOccurrences_ids ds d :
  d ∈ ds -> docId d ∈ docId <$> firstOccurrences ds.
Proof.
  induction ds as [|d0 ds IH]; [by intros ?%elem_of_nil|].
  intros [->|Hd]%elem_of_cons; simpl; [left|].
  destruct (decide (docId d = docId d0)) as [->|Hne]; [left|right].
  destruct (list_elem_of_fmap_1 _ _ _ (IH Hd)) as (d' & Heq & Hd').
  rewrite Heq. apply list_elem_of_fmap_2, list_elem_of_filter.
  split; [congruence|done].
Qed.

Lemma firstOccurrences_first ds d :
  d ∈ firstOccurrences ds -> exists i : nat, firstAt ds i d.
Proof.
  induction ds as [|d0 ds IH]; [by intros ?%elem_of_nil|].
  simpl. intros [->|Hd]%elem_of_cons.
  - exists O. split; [done|]. intros j d' Hj. lia.
  - apply list_elem_of_filter in Hd as [Hne Hd].
    destruct (IH Hd) as (i & Hi & Hfirst).
    exists (S i). split; [done|].
    intros [|j] d' Hj; simpl.
    + by intros [= <-].
    + apply Hfirst. lia.
Qed.
End dedup.

(** * The two passes over the titles *)

Section passes.
Implicit Types (r : Item.t) (items : list Item.t) (s t : jsstring).

Lemma otherFields_set_title r t :
  otherFields (Item.set_title r t) = otherFields r.
Proof. done. Qed.

Lemma otherFields_trimmed s r : otherFields (trimmed s r) = otherFields r.
Proof. unfold trimmed. by case_decide. Qed.

Lemma otherFields_trimCommonSuffix items :
  otherFields <$> trimCommonSuffix items = otherFields <$> items.
Proof.
  destruct (trimCommonSuffix_trimmed items) as [s ->].
  rewrite <- list_fmap_compose. apply list_fmap_ext.
  intros _ r _. apply otherFields_trimmed.
Qed.

Lemma otherFields_truncateTitles items :
  otherFields <$> truncateTitles items = otherFields <$> items.
Proof.
  unfold truncateTitles. rewrite <- list_fmap_compose.
  by apply list_fmap_ext.
Qed.

Lemma title_truncateTitles items :
  Item.title <$> truncateTitles items
  = (fun r => truncate (Item.title r) 50) <$> items.
Proof.
  unfold truncateTitles. rewrite <- list_fmap_compose.
  by apply list_fmap_ext.
Qed.

Lemma truncate_spec t (n : Z) :
  0 <= n ->
  truncate t n
  = if decide (len t <= n) then t else take (Z.to_nat n) t ++ lit "...".
Proof.
  intros Hn. unfold truncate.
  destruct (Z.gtb_spec (len t) n); case_decide; try lia; [|done].
  by rewrite slice_prefix.
Qed.

Lemma truncate_50 t : truncate t 50 = clamped50 t.
Proof. by rewrite truncate_spec. Qed.

Lemma truncate_nonempty t (n : Z) : 0 <= n -> t <> [] -> truncate t n <> [].
Proof.
  intros Hn Ht. rewrite truncate_spec by done. case_decide; [done|].
  intros [_ Hdots]%app_eq_nil. discriminate Hdots.
Qed.

Lemma len_clamped50 t : 50 < len t -> len (clamped50 t) = 53.
Proof.
  intros Ht. unfold clamped50. rewrite decide_False by lia.
  rewrite len_app. change (len (lit "...")) with 3.
  unfold len in *. rewrite length_take. lia.
Qed.

Lemma length_trimCommonSuffix items :
  length (trimCommonSuffix items) = length items.
Proof.
  destruct (trimCommonSuffix_trimmed items) as [s ->].
  apply length_fmap.
Qed.

Lemma length_truncateTitles items :
  length (truncateTitles items) = length items.
Proof. apply length_fmap. Qed.

Lemma otherFields_assemble (client : CorpusIndex) results :
  otherFields <$> assemble client results
  = (fun d => otherFields (makeItem d))
      <$> firstOccurrences (resolve client <$> results).
Proof.
  unfold assemble.
  rewrite otherFields_truncateTitles, otherFields_trimCommonSuffix.
  rewrite collect_firstOccurrences. by rewrite <- list_fmap_compose.
Qed.

(** The items [items] returns are those of some list of candidates. *)
Lemma items_assemble (client : CorpusIndex) engine params :
  exists results,
    (run engine (items client params)).1 = assemble client results.
Proof.
  unfold items, selectResults.
  destruct (ItemsParams.query params) as [q|]; simpl; [|by eexists].
  destruct (truthy (trim q)); simpl; by eexists.
Qed.
End passes.

(** C3. The loop emits the items of the candidates' documents restricted
    to the first occurrence of each identifier, in the candidates' order:
    the returned list has one item per kept document, at its position and
    with its url, hover and content; the kept documents have pairwise
    distinct identifiers, contain the identifier of every candidate, are a
    subsequence of the candidates' documents, and each is the first
    candidate document with its identifier.  A candidate whose identifier
    was seen is skipped and changes neither the set nor the items.  The
    candidates are the listing as it is without a query, and the engine's
    results in their order with one. *)
Theorem C3_first_occurrences (client : CorpusIndex) (results : list candidate) :
  let resolved := resolve client <$> results in
  let kept := firstOccurrences resolved in
  collect client results ∅ [] = makeItem <$> kept /\
  length (assemble client results) = length kept /\
  otherFields <$> assemble client results
    = (fun d => otherFields (makeItem d)) <$> kept /\
  NoDup (docId <$> kept) /\
  (forall d, d ∈ resolved -> docId d ∈ docId <$> kept) /\
  kept `sublist_of` resolved /\
  (forall d, d ∈ kept -> exists i : nat, firstAt resolved i d) /\
  (forall result rest (seen : gset Z) items,
     docId (resolve client result) ∈ seen ->
     collect client (result :: rest) seen items
     = collect client rest seen items) /\
  (forall ds : list IndexedDoc.t, resolve client <$> (OfIndex <$> ds) = ds) /\
  (forall rs : list SearchResult.t,
     resolve client <$> (OfSearch <$> rs)
     = (fun r => doc client (SearchResult.doc r)) <$> rs).
Proof.
  intros resolved kept.
  assert (Hcollect : collect client results ∅ [] = makeItem <$> kept)
    by apply collect_firstOccurrences.
  split; [done|]. split; [|split; [|split; [|split; [|split; [|split;
    [|split; [|split]]]]]]].
  - unfold assemble.
    rewrite length_truncateTitles, length_trimCommonSuffix, Hcollect.
    apply length_fmap.
  - apply otherFields_assemble.
  - apply firstOccurrences_NoDup.
  - apply firstOccurrences_ids.
  - apply firstOccurrences_sublist.
  - apply firstOccurrences_first.
  - intros result rest seen items Hseen. cbn [collect].
    by rewrite decide_True.
  - intros ds. rewrite <- list_fmap_compose. apply list_fmap_id.
  - intros rs. by rewrite <- list_fmap_compose.
Qed.

(** C3 on four candidates for two documents. *)
Lemma C3_first_occurrences_witness :
  let resolved := resolve fooIndex <$> sampleResults in
  let kept := firstOccurrences resolved in
  docId (titledDoc 2 configureTitle) ∈ docId <$> kept /\
  (exists i : nat, firstAt resolved i (titledDoc 2 configureTitle)) /\
  collect fooIndex sampleResults {[1]} []
  = collect fooIndex (tail sampleResults) {[1]} [].
Proof.
  intros resolved kept.
  destruct (C3_first_occurrences fooIndex sampleResults)
    as (_ & _ & _ & _ & Hids & _ & Hfirst & Hskip & _).
  split; [|split].
  - apply Hids. right. right. left.
  - apply Hfirst. right. left.
  - apply Hskip. by apply elem_of_singleton.
Defined.

(** C4. The returned titles are the titles left by the suffix-trimming
    step, each passed through [truncate] with the limit 50: a title of
    50 characters or fewer is returned as it is, a longer one is cut to
    its first 50 characters and "..." is appended.  Nothing else of an
    item changes in this step. *)
Theorem C4_truncation_after_trimming (client : CorpusIndex)
    (results : list candidate) :
  let trimmedItems := trimCommonSuffix (collect client results ∅ []) in
  assemble client results = truncateTitles trimmedItems /\
  Item.title <$> assemble client results
    = (fun r => clamped50 (Item.title r)) <$> trimmedItems /\
  otherFields <$> assemble client results = otherFields <$> trimmedItems /\
  Forall (fun r => len (Item.title r) <= 53) (assemble client results).
Proof.
  intros trimmedItems. split; [done|].
  assert (Htitles : Item.title <$> assemble client results
                    = (fun r => clamped50 (Item.title r)) <$> trimmedItems).
  { unfold assemble. rewrite title_truncateTitles.
    apply list_fmap_ext. intros _ r _. apply truncate_50. }
  split; [done|]. split.
  - unfold assemble. apply otherFields_truncateTitles.
  - apply (Forall_fmap Item.title (fun t => len t <= 53)).
    rewrite Htitles. apply Forall_fmap, Forall_forall. intros r _. simpl.
    destruct (decide (len (Item.title r) <= 50)) as [Hle|Hgt].
    + unfold clamped50. rewrite decide_True by done. lia.
    + rewrite len_clamped50 by lia. lia.
Qed.

(** C5. Without a query, or with a query that [trim] empties, [items]
    returns the items of the index's listing in its order and never calls
    the engine; with any other query it calls the engine once, with the
    trimmed text, and returns the items of its results. *)
Theorem C5_candidate_source (client : CorpusIndex)
    (engine : jsstring -> list SearchResult.t) (params : ItemsParams.t) :
  match ItemsParams.query params with
  | None =>
      items client params = Ret (assemble client (OfIndex <$> docs client))
      /\ run engine (items client params)
         = (assemble client (OfIndex <$> docs client), [])
  | Some q =>
      if decide (trim q = []) then
        items client params = Ret (assemble client (OfIndex <$> docs client))
        /\ run engine (items client params)
           = (assemble client (OfIndex <$> docs client), [])
      else
        items client params
        = Search (trim q)
            (fun rs => Ret (assemble client (OfSearch <$> rs)))
        /\ run engine (items client params)
           = (assemble client (OfSearch <$> engine (trim q)), [trim q])
  end.
Proof.
  unfold items, selectResults.
  destruct (ItemsParams.query params) as [q|]; simpl; [|done].
  case_decide as Hq.
  - rewrite Hq. done.
  - apply truthy_true in Hq. rewrite Hq. done.
Qed.

(** * The item of a document *)

Section item.
Implicit Types (d : IndexedDoc.t).

Lemma itemTitle_titleOf d : itemTitle d = titleOf d.
Proof.
  unfold itemTitle, titleOf, docTitle, docUrl.
  destruct (IndexedDoc.content d ≫= Content.title) as [[|c t]|];
    destruct (Doc.url (IndexedDoc.doc d)) as [[|c' u]|]; reflexivity.
Qed.

Lemma titleOf_nonempty d : 0 < len (titleOf d).
Proof.
  unfold titleOf.
  destruct (docTitle d) as [[|c t]|];
    destruct (docUrl d) as [[|c' u]|]; unfold len; simpl; lia.
Qed.

Lemma hover_previewOf d : Item.hover (Item.ui (makeItem d)) = previewOf d.
Proof.
  unfold makeItem, previewOf, docText. simpl.
  destruct (IndexedDoc.content d ≫= Content.textContent) as [[|c s]|];
    simpl; [done| |done].
  by rewrite truncate_spec.
Qed.
End item.

(** C6, as stated, fails: a document without a title whose URL is the
    empty string gets the title "Untitled", not its URL. *)
Lemma C6_empty_url_counterexample :
  Item.title (makeItem emptyUrlDoc) = lit "Untitled" /\
  titleAsSpecified emptyUrlDoc = [] /\
  Item.title (makeItem emptyUrlDoc) <> titleAsSpecified emptyUrlDoc.
Proof. split; [reflexivity|]. split; [reflexivity|]. discriminate. Qed.

(** C6, amended.  The title of an emitted item, before the passes over
    the titles, is the document's title if present and non-empty,
    otherwise the document's URL if present and non-empty, otherwise
    "Untitled"; a document with no title and no URL gets "Untitled". *)
Theorem C6_title_fallback (client : CorpusIndex) (results : list candidate) :
  (forall d, Item.title (makeItem d) = titleOf d) /\
  Item.title <$> collect client results ∅ []
    = titleOf <$> firstOccurrences (resolve client <$> results) /\
  (forall doc0 text, titleOf (IndexedDoc.mk (Doc.mk doc0 text None) None)
                     = lit "Untitled") /\
  (forall doc0 text textContent,
     titleOf (IndexedDoc.mk (Doc.mk doc0 text None)
                (Some (Content.mk None textContent)))
     = lit "Untitled").
Proof.
  split; [apply itemTitle_titleOf|]. split; [|done].
  rewrite collect_firstOccurrences, <- list_fmap_compose.
  apply list_fmap_ext. intros _ d _. apply itemTitle_titleOf.
Qed.

(** C7, as stated, fails: a document whose text content is present and
    empty gets no preview, not the preview of the empty text. *)
Lemma C7_empty_text_counterexample :
  docText emptyTextDoc = Some [] /\
  Item.hover (Item.ui (makeItem emptyTextDoc)) = None /\
  previewAsSpecified emptyTextDoc = Some {| Item.text := [] |} /\
  Item.hover (Item.ui (makeItem emptyTextDoc))
    <> previewAsSpecified emptyTextDoc.
Proof. repeat (split; [reflexivity|]). discriminate. Qed.

(** C7, amended.  When the document's text content is present and
    non-empty, the preview is its first 200 characters, followed by
    "..." exactly when the text has more than 200; when the text content
    is absent or empty there is no preview. *)
Theorem C7_preview (client : CorpusIndex) (results : list candidate) :
  (forall d, Item.hover (Item.ui (makeItem d)) = previewOf d) /\
  (fun r => Item.hover (Item.ui r)) <$> assemble client results
    = previewOf <$> firstOccurrences (resolve client <$> results).
Proof.
  split; [apply hover_previewOf|].
  pose proof (otherFields_assemble client results) as H.
  apply (f_equal (fmap (fun p => Item.hover p.1.2))) in H.
  rewrite <- !list_fmap_compose in H. etrans; [exact H|].
  apply list_fmap_ext. intros _ d _. apply hover_previewOf.
Qed.

(** C10. A document whose text content is the empty string gets no
    preview, exactly as one whose text content is absent, while the
    content passed on is the empty string itself; this is so in the
    item as built and in the item as returned. *)
Theorem C10_empty_text_content (client : CorpusIndex) (doc0 : Doc.t)
    (title : option jsstring) :
  let d := IndexedDoc.mk doc0 (Some (Content.mk title (Some []))) in
  let absent := IndexedDoc.mk doc0 (Some (Content.mk title None)) in
  Item.hover (Item.ui (makeItem d)) = None /\
  Item.ui (makeItem d) = Item.ui (makeItem absent) /\
  Item.content (Item.ai (makeItem d)) = Some [] /\
  Item.content (Item.ai (makeItem absent)) = None /\
  otherFields <$> assemble client [OfIndex d]
    = [(Doc.url doc0, {| Item.hover := None |},
        {| Item.content := Some [] |})].
Proof.
  intros d absent. repeat (split; [reflexivity|]).
  by rewrite otherFields_assemble.
Qed.

Section nonempty.
Implicit Types (r : Item.t) (s t : jsstring).

Lemma trimmed_title s r :
  trimmed s r = r \/ 10 <= len (Item.title (trimmed s r)).
Proof.
  unfold trimmed. case_decide as Hlen; [right|by left].
  simpl. unfold len in *. rewrite length_take. lia.
Qed.

Lemma truncate_50_length t : truncate t 50 = t \/ len (truncate t 50) = 53.
Proof.
  rewrite truncate_50.
  destruct (decide (len t <= 50)) as [Hle|Hgt].
  - left. unfold clamped50. by rewrite decide_True.
  - right. apply len_clamped50. lia.
Qed.

Lemma assemble_nonempty (client : CorpusIndex) results :
  Forall (fun r => 0 < len (Item.title r)) (assemble client results).
Proof.
  unfold assemble, truncateTitles.
  destruct (trimCommonSuffix_trimmed (collect client results ∅ []))
    as [s ->].
  rewrite collect_firstOccurrences.
  rewrite <- !list_fmap_compose. apply Forall_fmap, Forall_forall.
  intros d _. simpl.
  assert (H1 : 0 < len (Item.title (makeItem d))).
  { simpl. rewrite itemTitle_titleOf. apply titleOf_nonempty. }
  assert (H2 : 0 < len (Item.title (trimmed s (makeItem d)))).
  { destruct (trimmed_title s (makeItem d)) as [Heq|Hten];
      [by rewrite Heq|lia]. }
  destruct (truncate_50_length (Item.title (trimmed s (makeItem d))))
    as [Heq|Heq]; rewrite Heq; [done|lia].
Qed.
End nonempty.

(** C9. Every item returned has a non-empty title, for every index, every
    list of candidates, every engine and every request: the fallback chain
    gives a non-empty title, the trimming step leaves an item as it is or
    leaves it a title of at least 10 characters, and [truncate] returns
    its text as it is or a text of 53 characters. *)
Theorem C9_titles_nonempty (client : CorpusIndex) :
  (forall results,
     Forall (fun r => 0 < len (Item.title r)) (assemble client results)) /\
  (forall engine params,
     Forall (fun r => 0 < len (Item.title r))
       (run engine (items client params)).1) /\
  (forall d, 0 < len (Item.title (makeItem d))) /\
  (forall s r, trimmed s r = r \/ 10 <= len (Item.title (trimmed s r))) /\
  (forall t, truncate t 50 = t \/ len (truncate t 50) = 53).
Proof.
  split; [apply assemble_nonempty|]. split; [|split; [|split]].
  - intros engine params.
    destruct (items_assemble client engine params) as [results ->].
    apply assemble_nonempty.
  - intros d. simpl. rewrite itemTitle_titleOf. apply titleOf_nonempty.
  - apply trimmed_title.
  - apply truncate_50_length.
Qed.

(** * The example of the specification *)

(** C2, as stated, fails: the two titles come back as they were, not as
    "Install" and "Configure". *)
Lemma C2_foo_docs_counterexample :
  Item.title <$> (run noResults (items fooIndex (ItemsParams.mk None))).1
  <> [lit "Install"; lit "Configure"].
Proof. vm_compute. discriminate. Qed.

(** C2, amended.  For the two titles "Install — Foo Docs" and
    "Configure — Foo Docs" the shared suffix " — Foo Docs", of 11
    characters, is detected; the titles have 18 and 20 characters, fewer
    than the 21 the guard asks for, so neither is trimmed, and the titles
    returned are the two titles as they were. *)
Theorem C2_foo_docs :
  longestCommonSuffix [installTitle; configureTitle] = fooSuffix /\
  len fooSuffix = 11 /\
  len installTitle = 18 /\
  len configureTitle = 20 /\
  (len installTitle >=? len fooSuffix + 10) = false /\
  (len configureTitle >=? len fooSuffix + 10) = false /\
  Item.title <$> assemble fooIndex (OfIndex <$> docs fooIndex)
    = [installTitle; configureTitle] /\
  Item.title <$> (run noResults (items fooIndex (ItemsParams.mk None))).1
    = [installTitle; configureTitle].
Proof. repeat split; vm_compute; reflexivity. Qed.

(** * The order of the two passes *)

(** Trimming and then truncating keeps the mark of the cut; truncating
    first would make "..." the common suffix and trim it away. *)
Example trim_then_truncate :
  Item.title <$> truncateTitles (trimCommonSuffix longItems)
    = [replicate 50 97 ++ lit "..."; replicate 50 98 ++ lit "..."] /\
  Item.title <$> trimCommonSuffix (truncateTitles longItems)
    = [replicate 50 97; replicate 50 98].
Proof. split; vm_compute; reflexivity. Qed.

(** * The index loader *)

(** C8, as stated, fails: the loader looks at the scheme only to tell
    [file:] apart, so a locator whose scheme is neither [file:] nor a
    network scheme goes to [fetch], and when [fetch] answers it with
    success the loader returns an index. *)
Lemma C8_data_scheme_counterexample :
  new_URL dataRuntime dataLocator = Returns dataURL /\
  protocol dataURL <> lit "file:" /\
  ~ networkScheme (protocol dataURL) /\
  fetchIndex dataRuntime dataLocator = Returns emptyIndex.
Proof.
  split; [reflexivity|]. split; [discriminate|]. split; [|reflexivity].
  intros [H|H]; discriminate H.
Qed.

(** C8, amended.  For a locator whose scheme is not [file:] the loader
    calls [fetch] whatever the scheme.  It fails, and produces no index,
    when [fetch] fails, with the error of [fetch]; and when the response
    is not a success, with an [Error] whose message carries the locator
    and the status code.  A successful response is parsed. *)
Theorem C8_loader_failures {J : Type} (rt : Runtime J) (urlStr : jsstring)
    (url : URL) :
  new_URL rt urlStr = Returns url ->
  protocol url <> lit "file:" ->
  match fetch rt urlStr with
  | Throws e => fetchIndex rt urlStr = Throws e
  | Returns resp =>
      if ok resp then fetchIndex rt urlStr = json resp ≫= fromJSON rt
      else
        fetchIndex rt urlStr
        = Throws {| name := lit "Error";
                    message := lit "Failed to fetch corpus index from "
                               ++ urlStr ++ lit " with HTTP status "
                               ++ numberToString (status resp) |}
  end.
Proof.
  intros Hurl Hproto. unfold fetchIndex. rewrite Hurl. simpl.
  rewrite bool_decide_eq_false_2 by done.
  destruct (fetch rt urlStr) as [resp|e]; simpl; [|done].
  by destruct (ok resp).
Qed.

(** C8 on a response with status 404. *)
Lemma C8_loader_failures_witness :
  fetchIndex notFoundRuntime httpsLocator
  = Throws {| name := lit "Error";
              message := lit "Failed to fetch corpus index from "
                         ++ httpsLocator ++ lit " with HTTP status "
                         ++ numberToString 404 |}.
Proof.
  apply (C8_loader_failures notFoundRuntime httpsLocator
           (mkURL (lit "https:") (lit "/index.json"))).
  - reflexivity.
  - discriminate.
Defined.

Example not_found_message :
  lit "Failed to fetch corpus index from " ++ httpsLocator
  ++ lit " with HTTP status " ++ numberToString 404
  = lit "Failed to fetch corpus index from https://example.com/index.json with HTTP status 404".
Proof. reflexivity. Qed.

(** * More on the longest common suffix *)

Section common_suffix.
Implicit Types (s t u : jsstring) (texts : list jsstring).

Lemma longestCommonSuffix_common texts :
  commonSuffix texts (longestCommonSuffix texts).
Proof. intros t Ht. by apply longestCommonSuffix_suffix. Qed.

(** The result is the only common suffix that every common suffix is a
    suffix of. *)
Lemma longestCommonSuffix_unique texts s :
  texts <> [] ->
  commonSuffix texts s ->
  (forall u, commonSuffix texts u -> u `suffix_of` s) ->
  longestCommonSuffix texts = s.
Proof.
  intros Hne Hs Hmax. apply (anti_symm suffix).
  - apply Hmax, longestCommonSuffix_common.
  - by apply longestCommonSuffix_longest.
Qed.

Lemma commonSuffix_app texts s u :
  texts <> [] ->
  commonSuffix ((fun t => t ++ s) <$> texts) u ->
  u `suffix_of` s \/
  exists u', u = u' ++ s /\ commonSuffix texts u'.
Proof.
  intros Hne Hu. destruct texts as [|t0 texts]; [done|].
  assert (H0 : u `suffix_of` t0 ++ s) by (apply Hu; left).
  assert (Hs : s `suffix_of` t0 ++ s) by by apply suffix_app_r.
  destruct (suffix_weak_total u s (t0 ++ s) H0 Hs) as [Hus|[u' ->]];
    [by left|right].
  exists u'. split; [done|]. intros t Ht.
  apply (suffix_app_inv _ _ s), Hu.
  by apply (list_elem_of_fmap_2 (fun t => t ++ s)).
Qed.

Lemma longestCommonSuffix_app texts s :
  texts <> [] ->
  longestCommonSuffix ((fun t => t ++ s) <$> texts)
  = longestCommonSuffix texts ++ s.
Proof.
  intros Hne. apply longestCommonSuffix_unique.
  - by destruct texts.
  - intros t' (t & -> & Ht)%list_elem_of_fmap.
    by apply suffix_app, longestCommonSuffix_suffix.
  - intros u Hu.
    destruct (commonSuffix_app texts s u Hne Hu) as [Hus|(u' & -> & Hu')].
    + by apply suffix_app_r.
    + by apply suffix_app, longestCommonSuffix_longest.
Qed.

(** Texts with the same elements have the same longest common suffix. *)
Lemma longestCommonSuffix_same_elements texts texts' :
  (forall t, t ∈ texts <-> t ∈ texts') ->
  longestCommonSuffix texts = longestCommonSuffix texts'.
Proof.
  intros Hsame. destruct texts as [|t0 texts].
  - destruct texts' as [|t' texts']; [done|].
    exfalso. apply (not_elem_of_nil t'), Hsame. left.
  - apply longestCommonSuffix_unique; [done|..].
    + intros t Ht. apply longestCommonSuffix_suffix. by apply Hsame.
    + intros u Hu. apply longestCommonSuffix_longest.
      * intros ->. apply (not_elem_of_nil t0), Hsame. left.
      * intros t Ht. apply Hu. by apply Hsame.
Qed.

Lemma dropEnd_app t s : dropEnd (length s) (t ++ s) = t.
Proof.
  unfold dropEnd. rewrite length_app, Nat.add_sub. apply take_app_length.
Qed.

Lemma suffix_dropEnd s t : s `suffix_of` t -> dropEnd (length s) t ++ s = t.
Proof. intros [k ->]. by rewrite dropEnd_app. Qed.

(** Once the longest common suffix is cut from every text, nothing
    common is left at the end. *)
Lemma longestCommonSuffix_dropEnd texts :
  texts <> [] ->
  longestCommonSuffix
    (dropEnd (length (longestCommonSuffix texts)) <$> texts) = [].
Proof.
  intros Hne. set (S := longestCommonSuffix texts).
  set (cut := dropEnd (length S) <$> texts).
  assert (Htexts : (fun t => t ++ S) <$> cut = texts).
  { unfold cut. rewrite <- list_fmap_compose.
    rewrite <- (list_fmap_id texts) at 2. apply list_fmap_ext.
    intros _ t Ht%list_elem_of_lookup_2. simpl.
    by apply suffix_dropEnd, longestCommonSuffix_suffix. }
  assert (Hcut : cut <> []) by (unfold cut; by destruct texts).
  pose proof (longestCommonSuffix_app cut S Hcut) as Happ.
  rewrite Htexts in Happ. fold S in Happ.
  apply (f_equal length) in Happ. rewrite length_app in Happ.
  apply nil_length_inv. lia.
Qed.
End common_suffix.

(** X1. [longestCommonSuffix] depends on which texts there are, not on
    their order or on how often each occurs. *)
Theorem X1_suffix_same_elements (texts texts' : list jsstring) :
  (forall t, t ∈ texts <-> t ∈ texts') ->
  longestCommonSuffix texts = longestCommonSuffix texts'.
Proof. apply longestCommonSuffix_same_elements. Qed.

(** X1 on a list, and the list reversed with one text repeated. *)
Lemma X1_suffix_same_elements_witness :
  longestCommonSuffix [lit "Intro - Site"; lit "API - Site"]
  = longestCommonSuffix [lit "API - Site"; lit "Intro - Site"; lit "API - Site"].
Proof.
  apply X1_suffix_same_elements. intros t.
  rewrite !elem_of_cons, !elem_of_nil. tauto.
Defined.

(** X2. Appending the same string to every text of a non-empty list
    appends it to the longest common suffix. *)
Theorem X2_suffix_of_appended (texts : list jsstring) (s : jsstring) :
  texts <> [] ->
  longestCommonSuffix ((fun t => t ++ s) <$> texts)
  = longestCommonSuffix texts ++ s.
Proof. apply longestCommonSuffix_app. Qed.

Lemma X2_suffix_of_appended_witness :
  longestCommonSuffix
    ((fun t => t ++ lit " - Site") <$> [lit "Intro"; lit "Usage"])
  = longestCommonSuffix [lit "Intro"; lit "Usage"] ++ lit " - Site".
Proof. apply X2_suffix_of_appended. discriminate. Defined.

(** X3. Cutting the longest common suffix off every text of a non-empty
    list leaves texts whose longest common suffix is empty. *)
Theorem X3_nothing_common_left (texts : list jsstring) :
  texts <> [] ->
  longestCommonSuffix
    (dropEnd (length (longestCommonSuffix texts)) <$> texts) = [].
Proof. apply longestCommonSuffix_dropEnd. Qed.

Lemma X3_nothing_common_left_witness :
  longestCommonSuffix
    (dropEnd (length (longestCommonSuffix [lit "Intro - Site"; lit "API - Site"]))
       <$> [lit "Intro - Site"; lit "API - Site"]) = [].
Proof. apply X3_nothing_common_left. discriminate. Defined.

Section whole_text.
Implicit Types (s t : jsstring) (texts : list jsstring)
  (r : Item.t) (items : list Item.t).

Lemma longestCommonSuffix_member texts t :
  t ∈ texts -> commonSuffix texts t -> longestCommonSuffix texts = t.
Proof.
  intros Ht Hcommon. apply longestCommonSuffix_unique; [|done|].
  - intros ->. by apply elem_of_nil in Ht.
  - intros u Hu. by apply Hu.
Qed.

Lemma trimCommonSuffix_same_titles items t :
  (forall r, r ∈ items -> Item.title r = t) ->
  trimCommonSuffix items = items.
Proof.
  intros Hsame. destruct items as [|r1 [|r2 rest]]; [done..|].
  rewrite trimCommonSuffix_many.
  set (items := r1 :: r2 :: rest) in *.
  assert (HS : longestCommonSuffix (Item.title <$> items) = t).
  { apply longestCommonSuffix_member.
    - rewrite <- (Hsame r1) by left. apply list_elem_of_fmap_2. left.
    - intros t' (r & -> & Hr)%list_elem_of_fmap. by rewrite (Hsame r Hr). }
  rewrite HS. rewrite <- (list_fmap_id items) at 2.
  apply list_fmap_ext. intros _ r Hr%list_elem_of_lookup_2.
  unfold trimmed. rewrite (Hsame r Hr). by rewrite decide_False by lia.
Qed.
End whole_text.

(** X4. When one of the texts is a suffix of every text, it is the
    longest common suffix. *)
Theorem X4_suffix_is_member (texts : list jsstring) (t : jsstring) :
  t ∈ texts -> commonSuffix texts t -> longestCommonSuffix texts = t.
Proof. apply longestCommonSuffix_member. Qed.

Lemma X4_suffix_is_member_witness :
  longestCommonSuffix [lit "Guide: Docs"; lit "Docs"; lit "API Docs"]
  = lit "Docs".
Proof.
  apply X4_suffix_is_member.
  - right. left.
  - intros t Ht. apply elem_of_cons in Ht as [->|Ht];
      [by exists (lit "Guide: ")|].
    apply elem_of_cons in Ht as [->|Ht]; [done|].
    apply list_elem_of_singleton in Ht as ->. by exists (lit "API ").
Defined.

(** X5. Items that all have the same title come out of the trimming step
    as they were: the common suffix is the whole title, and the guard of
    line 60 keeps it. *)
Theorem X5_same_titles_kept (items : list Item.t) (t : jsstring) :
  (forall r, r ∈ items -> Item.title r = t) ->
  trimCommonSuffix items = items.
Proof. apply trimCommonSuffix_same_titles. Qed.

Lemma X5_same_titles_kept_witness :
  trimCommonSuffix [plainItem (lit "Release notes for the docs");
                    plainItem (lit "Release notes for the docs")]
  = [plainItem (lit "Release notes for the docs");
     plainItem (lit "Release notes for the docs")].
Proof.
  apply (X5_same_titles_kept _ (lit "Release notes for the docs")).
  intros r Hr. apply elem_of_cons in Hr as [->|Hr]; [done|].
  by apply list_elem_of_singleton in Hr as ->.
Defined.

(** * More on [truncate] *)

Section truncate_more.
Implicit Types (t : jsstring) (n : Z).

Lemma truncate_idempotent t n :
  0 <= n -> truncate (truncate t n) n = truncate t n.
Proof.
  intros Hn. rewrite (truncate_spec t n Hn).
  case_decide as Hlen.
  - rewrite truncate_spec by done. by rewrite decide_True.
  - rewrite truncate_spec by done.
    assert (Hn' : (Z.to_nat n < length t)%nat) by (unfold len in Hlen; lia).
    rewrite decide_False; last first.
    { rewrite len_app. unfold len. rewrite length_take. simpl. lia. }
    rewrite take_app_le by (rewrite length_take; lia).
    rewrite take_take. by rewrite Nat.min_id.
Qed.

Lemma truncate_length t n : 0 <= n -> len (truncate t n) <= n + 3.
Proof.
  intros Hn. rewrite truncate_spec by done. case_decide; [lia|].
  rewrite len_app. unfold len. rewrite length_take. simpl. lia.
Qed.

Lemma truncate_prefix t n :
  0 <= n -> take (Z.to_nat n) (truncate t n) = take (Z.to_nat n) t.
Proof.
  intros Hn. rewrite truncate_spec by done. case_decide as Hlen; [done|].
  rewrite take_app_le by (unfold len in Hlen; rewrite length_take; lia).
  rewrite take_take. by rewrite Nat.min_id.
Qed.

Lemma truncate_negative t n :
  n < 0 -> truncate t n = dropEnd (Z.to_nat (- n)) t ++ lit "...".
Proof.
  intros Hn. unfold truncate.
  destruct (Z.gtb_spec (len t) n) as [_|Hle]; [|unfold len in Hle; lia].
  f_equal. unfold slice, relative_index, dropEnd, len.
  destruct (Z.ltb_spec 0 0); [lia|].
  destruct (Z.ltb_spec n 0); [|lia].
  replace (Z.to_nat (Z.min 0 (Z.of_nat (length t)))) with O by lia.
  rewrite drop_0. f_equal. lia.
Qed.
End truncate_more.

(** X6. With a limit that is not negative, truncating twice is
    truncating once: the "..." added by the first call is cut and added
    again by the second. *)
Theorem X6_truncate_idempotent (t : jsstring) (n : Z) :
  0 <= n -> truncate (truncate t n) n = truncate t n.
Proof. apply truncate_idempotent. Qed.

Lemma X6_truncate_idempotent_witness :
  truncate (truncate (lit "A long title") 6) 6 = truncate (lit "A long title") 6.
Proof. apply X6_truncate_idempotent. lia. Defined.

(** X7. With a limit [n] that is not negative, the result of [truncate]
    has at most [n + 3] characters and its first [n] characters are the
    first [n] characters of the text. *)
Theorem X7_truncate_bound (t : jsstring) (n : Z) :
  0 <= n ->
  len (truncate t n) <= n + 3 /\
  take (Z.to_nat n) (truncate t n) = take (Z.to_nat n) t.
Proof.
  intros Hn. split; [by apply truncate_length|by apply truncate_prefix].
Qed.

Lemma X7_truncate_bound_witness :
  len (truncate (lit "A long title") 6) <= 6 + 3 /\
  take (Z.to_nat 6) (truncate (lit "A long title") 6)
  = take (Z.to_nat 6) (lit "A long title").
Proof. apply X7_truncate_bound. lia. Defined.

(** X8. With a negative limit [n], [truncate] cuts the last [- n]
    characters, as [slice] counts a negative end from the end of the
    text, and always appends "...", also to the empty text. *)
Theorem X8_truncate_negative (t : jsstring) (n : Z) :
  n < 0 -> truncate t n = dropEnd (Z.to_nat (- n)) t ++ lit "...".
Proof. apply truncate_negative. Qed.

Lemma X8_truncate_negative_witness :
  truncate (lit "title") (-2) = dropEnd (Z.to_nat (- -2)) (lit "title") ++ lit "...".
Proof. apply X8_truncate_negative. lia. Defined.

(** * More on the items returned *)

Section more_items.
Context (client : CorpusIndex).
Implicit Types (d : IndexedDoc.t) (ds : list IndexedDoc.t)
  (results : list candidate).

Lemma firstOccurrences_subset ds d : d ∈ firstOccurrences ds -> d ∈ ds.
Proof.
  intros Hd. eapply elem_of_sublist; [exact Hd|].
  apply firstOccurrences_sublist.
Qed.

Lemma filter_none {A} (P : A -> Prop) `{!forall x, Decision (P x)}
    (l : list A) :
  (forall x, x ∈ l -> ~ P x) -> filter P l = [].
Proof.
  induction l as [|x l IH]; intros Hnone; [done|].
  rewrite filter_cons_False by (apply Hnone; left).
  apply IH. intros y Hy. apply Hnone. by right.
Qed.

Lemma firstOccurrences_id_set ds :
  (list_to_set (docId <$> firstOccurrences ds) : gset Z)
  = list_to_set (docId <$> ds).
Proof.
  apply set_eq. intros id. rewrite !elem_of_list_to_set. split.
  - intros (d & -> & Hd)%list_elem_of_fmap.
    by apply list_elem_of_fmap_2, firstOccurrences_subset.
  - intros (d & -> & Hd)%list_elem_of_fmap.
    by apply firstOccurrences_ids.
Qed.

Lemma length_firstOccurrences ds :
  length (firstOccurrences ds)
  = size (list_to_set (docId <$> ds) : gset Z).
Proof.
  rewrite <- firstOccurrences_id_set.
  rewrite size_list_to_set by apply firstOccurrences_NoDup.
  by rewrite length_fmap.
Qed.

Lemma length_assemble results :
  length (assemble client results)
  = length (firstOccurrences (resolve client <$> results)).
Proof.
  unfold assemble.
  rewrite length_truncateTitles, length_trimCommonSuffix.
  rewrite collect_firstOccurrences. apply length_fmap.
Qed.

(** Documents whose identifiers all occurred before add nothing. *)
Lemma firstOccurrences_app ds more :
  firstOccurrences (ds ++ more)
  = firstOccurrences ds
    ++ filter (fun d => docId d ∉ docId <$> ds) (firstOccurrences more).
Proof.
  induction ds as [|d ds IH]; simpl.
  - symmetry. apply filter_all. intros d _. apply not_elem_of_nil.
  - f_equal. rewrite IH, filter_app, list_filter_filter. f_equal.
    apply list_filter_iff. intros d'. rewrite not_elem_of_cons. tauto.
Qed.

Lemma firstOccurrences_seen ds more :
  (forall d, d ∈ more -> docId d ∈ docId <$> ds) ->
  firstOccurrences (ds ++ more) = firstOccurrences ds.
Proof.
  intros Hseen. rewrite firstOccurrences_app.
  rewrite filter_none; [by rewrite app_nil_r|].
  intros d Hd Hnot. by apply Hnot, Hseen, firstOccurrences_subset.
Qed.
End more_items.

Section returned_titles.
Context (client : CorpusIndex).
Implicit Types (d : IndexedDoc.t) (results : list candidate)
  (r : Item.t) (s t : jsstring).

Lemma assemble_seen results more :
  (forall c, c ∈ more ->
     docId (resolve client c)
     ∈ (fun c' => docId (resolve client c')) <$> results) ->
  assemble client (results ++ more) = assemble client results.
Proof.
  intros Hseen. unfold assemble. rewrite !collect_firstOccurrences.
  rewrite fmap_app, firstOccurrences_seen; [done|].
  intros d (c & -> & Hc)%list_elem_of_fmap.
  rewrite <- list_fmap_compose. by apply Hseen.
Qed.

Lemma assemble_single results d :
  firstOccurrences (resolve client <$> results) = [d] ->
  assemble client results
  = [Item.set_title (makeItem d) (clamped50 (titleOf d))].
Proof.
  intros Hone. unfold assemble. rewrite collect_firstOccurrences, Hone.
  simpl. by rewrite truncate_50, itemTitle_titleOf.
Qed.

Lemma trimmed_title_prefix s r :
  Item.title (trimmed s r) `prefix_of` Item.title r.
Proof. unfold trimmed. case_decide; [apply prefix_take|done]. Qed.

(** What the two passes make of a title [t]: a non-empty prefix of it,
    alone or followed by "...". *)
Lemma passes_title s d :
  exists p,
    p `prefix_of` titleOf d /\ p <> [] /\
    let t := truncate (Item.title (trimmed s (makeItem d))) 50 in
    t = p \/ t = p ++ lit "...".
Proof.
  set (t' := Item.title (trimmed s (makeItem d))).
  assert (Hpre : t' `prefix_of` titleOf d).
  { rewrite <- itemTitle_titleOf. apply (trimmed_title_prefix s (makeItem d)). }
  assert (Hne : 0 < len t').
  { pose proof (titleOf_nonempty d) as Hd.
    destruct (trimmed_title s (makeItem d)) as [Heq|Hten]; [|subst t'; lia].
    subst t'. rewrite Heq. simpl. by rewrite itemTitle_titleOf. }
  simpl. rewrite truncate_50. unfold clamped50. case_decide as Hlen.
  - exists t'. split; [done|]. split; [|by left].
    intros Hnil. rewrite Hnil in Hne. unfold len in Hne. simpl in Hne. lia.
  - exists (take 50 t'). split; [|split; [|by right]].
    + etrans; [apply prefix_take|done].
    + intros Hnil. apply (f_equal length) in Hnil.
      rewrite length_take in Hnil. unfold len in Hlen.
      cbn [length] in Hnil. lia.
Qed.

Lemma assemble_titles results :
  Forall2
    (fun d r =>
       exists p, p `prefix_of` titleOf d /\ p <> [] /\
                 (Item.title r = p \/ Item.title r = p ++ lit "..."))
    (firstOccurrences (resolve client <$> results))
    (assemble client results).
Proof.
  unfold assemble, truncateTitles.
  destruct (trimCommonSuffix_trimmed (collect client results ∅ []))
    as [s ->].
  rewrite collect_firstOccurrences, <- !list_fmap_compose.
  apply Forall2_fmap_r, Forall2_same_length_lookup.
  split; [done|]. intros i d d' Hd Hd'. simplify_eq. simpl.
  apply (passes_title s d).
Qed.
End returned_titles.

(** X9. [items] returns as many items as the candidates have distinct
    document identifiers, never more than there are candidates. *)
Theorem X9_item_count (client : CorpusIndex) (results : list candidate) :
  length (assemble client results)
  = size (list_to_set ((fun c => docId (resolve client c)) <$> results)
          : gset Z) /\
  (length (assemble client results) <= length results)%nat.
Proof.
  rewrite length_assemble. split.
  - rewrite length_firstOccurrences. by rewrite <- list_fmap_compose.
  - rewrite <- (length_fmap (resolve client) results).
    apply sublist_length, firstOccurrences_sublist.
Qed.

(** X10. Candidates that follow and whose documents were all seen among
    the candidates before them change nothing in what is returned. *)
Theorem X10_seen_candidates_add_nothing (client : CorpusIndex)
    (results more : list candidate) :
  (forall c, c ∈ more ->
     docId (resolve client c)
     ∈ (fun c' => docId (resolve client c')) <$> results) ->
  assemble client (results ++ more) = assemble client results.
Proof. apply assemble_seen. Qed.

Lemma X10_seen_candidates_add_nothing_witness :
  assemble fooIndex
    ([OfIndex (titledDoc 1 installTitle); OfSearch (SearchResult.mk 2 0 [])]
     ++ [OfSearch (SearchResult.mk 1 3 []); OfIndex (titledDoc 2 configureTitle)])
  = assemble fooIndex
      [OfIndex (titledDoc 1 installTitle); OfSearch (SearchResult.mk 2 0 [])].
Proof.
  apply X10_seen_candidates_add_nothing. intros c Hc.
  apply elem_of_cons in Hc as [->|Hc]; [left|].
  apply list_elem_of_singleton in Hc as ->. right. left.
Defined.

(** X11. When the candidates are all of one document, the trimming step
    does not run: the one item returned has the document's title, cut
    to 50 characters only, and its other fields as built. *)
Theorem X11_single_document (client : CorpusIndex)
    (results : list candidate) (d : IndexedDoc.t) :
  firstOccurrences (resolve client <$> results) = [d] ->
  assemble client results
  = [Item.set_title (makeItem d) (clamped50 (titleOf d))].
Proof. apply assemble_single. Qed.

Lemma X11_single_document_witness :
  assemble fooIndex
    [OfSearch (SearchResult.mk 2 0 []); OfSearch (SearchResult.mk 2 1 [])]
  = [Item.set_title (makeItem (titledDoc 2 configureTitle))
       (clamped50 (titleOf (titledDoc 2 configureTitle)))].
Proof. apply X11_single_document. reflexivity. Defined.

(** X12. Every title returned is a non-empty prefix of the title the
    document was given at line 40, alone or followed by "...": the two
    passes only cut at the end. *)
Theorem X12_titles_are_prefixes (client : CorpusIndex)
    (results : list candidate) :
  Forall2
    (fun d r =>
       exists p, p `prefix_of` titleOf d /\ p <> [] /\
                 (Item.title r = p \/ Item.title r = p ++ lit "..."))
    (firstOccurrences (resolve client <$> results))
    (assemble client results).
Proof. apply assemble_titles. Qed.

(** * The query *)

Section trim.
Implicit Types (s : jsstring) (c : Z).

Lemma trimStart_head s c :
  head (trimStart s) = Some c -> isWhiteSpace c = false.
Proof.
  induction s as [|c' s IH]; simpl; [done|].
  destruct (isWhiteSpace c') eqn:Hc'; [done|]. simpl. by intros [= <-].
Qed.

Lemma trimStart_fixed s :
  (forall c, head s = Some c -> isWhiteSpace c = false) -> trimStart s = s.
Proof.
  destruct s as [|c s]; simpl; [done|]. intros Hhead.
  by rewrite (Hhead c eq_refl).
Qed.

Lemma trimStart_blank s :
  Forall (fun c => isWhiteSpace c = true) s -> trimStart s = [].
Proof. induction 1 as [|c s Hc _ IH]; simpl; [done|]. by rewrite Hc. Qed.

Lemma trimStart_suffix s : trimStart s `suffix_of` s.
Proof.
  induction s as [|c s IH]; simpl; [done|].
  destruct (isWhiteSpace c); [by apply suffix_cons_r|done].
Qed.

Lemma trimEnd_prefix s : trimEnd s `prefix_of` s.
Proof.
  unfold trimEnd. pose proof (trimStart_suffix (reverse s)) as Hsuf.
  apply suffix_prefix_reverse in Hsuf. by rewrite reverse_involutive in Hsuf.
Qed.

Lemma trimEnd_last s c :
  last (trimEnd s) = Some c -> isWhiteSpace c = false.
Proof. unfold trimEnd. rewrite last_reverse. apply trimStart_head. Qed.

Lemma trimEnd_fixed s :
  (forall c, last s = Some c -> isWhiteSpace c = false) -> trimEnd s = s.
Proof.
  intros Hlast. unfold trimEnd. rewrite trimStart_fixed.
  - apply reverse_involutive.
  - intros c. rewrite head_reverse. apply Hlast.
Qed.

Lemma trim_head s c : head (trim s) = Some c -> isWhiteSpace c = false.
Proof.
  unfold trim. intros Hhead. apply (trimStart_head s).
  destruct (trimEnd_prefix (trimStart s)) as [k Hk].
  rewrite Hk. by destruct (trimEnd (trimStart s)).
Qed.

Lemma trim_last s c : last (trim s) = Some c -> isWhiteSpace c = false.
Proof. apply trimEnd_last. Qed.

Lemma trim_fixed s : trim (trim s) = trim s.
Proof.
  unfold trim at 1. rewrite (trimStart_fixed (trim s)).
  - apply trimEnd_fixed. apply trim_last.
  - apply trim_head.
Qed.

Lemma trim_blank s :
  Forall (fun c => isWhiteSpace c = true) s -> trim s = [].
Proof. intros Hs. unfold trim. by rewrite trimStart_blank. Qed.
End trim.

Section query.
Implicit Types (client : CorpusIndex) (results : list candidate).

Lemma collect_ext client client' results (seen : gset Z) items0 :
  (forall c, c ∈ results -> resolve client c = resolve client' c) ->
  collect client results seen items0 = collect client' results seen items0.
Proof.
  intros Hext. rewrite !collect_spec. do 4 f_equal.
  apply list_fmap_ext. intros _ c Hc%list_elem_of_lookup_2. by apply Hext.
Qed.

Lemma assemble_ext client client' results :
  (forall c, c ∈ results -> resolve client c = resolve client' c) ->
  assemble client results = assemble client' results.
Proof. intros Hext. unfold assemble. by rewrite (collect_ext _ client'). Qed.

Lemma run_items_trace client engine params :
  let trace := (run engine (items client params)).2 in
  (length trace <= 1)%nat /\
  Forall (fun text => text <> [] /\ trim text = text) trace.
Proof.
  unfold items, selectResults.
  destruct (ItemsParams.query params) as [q|]; simpl;
    [|split; [lia|constructor]].
  destruct (truthy (trim q)) eqn:Hq; simpl; [|split; [lia|constructor]].
  split; [lia|]. repeat constructor.
  - by apply truthy_true.
  - apply trim_fixed.
Qed.
End query.

(** X13. The engine is called at most once for a request, and only
    with a text that is not empty and that [trim] leaves as it is, so
    with no white space at either end. *)
Theorem X13_engine_calls (client : CorpusIndex)
    (engine : jsstring -> list SearchResult.t) (params : ItemsParams.t) :
  let trace := (run engine (items client params)).2 in
  (length trace <= 1)%nat /\
  Forall (fun text => text <> [] /\ trim text = text) trace.
Proof. apply run_items_trace. Qed.

(** X14. A query of white space only is treated as no query. *)
Theorem X14_blank_query (client : CorpusIndex) (q : jsstring) :
  Forall (fun c => isWhiteSpace c = true) q ->
  items client (ItemsParams.mk (Some q)) = items client (ItemsParams.mk None).
Proof.
  intros Hq. unfold items, selectResults. simpl.
  by rewrite (trim_blank q Hq).
Qed.

Lemma X14_blank_query_witness :
  items fooIndex (ItemsParams.mk (Some [32; 9; 10; 160]))
  = items fooIndex (ItemsParams.mk None).
Proof.
  apply X14_blank_query. repeat constructor.
Defined.

(** X15. A query and the same query without the white space around it
    give the same computation: the same call to the engine and the same
    items. *)
Theorem X15_query_is_trimmed (client : CorpusIndex) (q : jsstring) :
  items client (ItemsParams.mk (Some q))
  = items client (ItemsParams.mk (Some (trim q))).
Proof. unfold items, selectResults. simpl. by rewrite trim_fixed. Qed.

(** X16. Without a query the items do not depend on the engine nor on
    the index's lookup by identifier; with a query that [trim] does not
    empty, they do not depend on the index's listing. *)
Theorem X16_what_a_request_reads (ds ds' : list IndexedDoc.t)
    (f g : DocID -> IndexedDoc.t)
    (engine engine' : jsstring -> list SearchResult.t) (q : jsstring) :
  run engine (items (mkIndex ds f) (ItemsParams.mk None))
  = run engine' (items (mkIndex ds g) (ItemsParams.mk None)) /\
  (trim q <> [] ->
   run engine (items (mkIndex ds f) (ItemsParams.mk (Some q)))
   = run engine (items (mkIndex ds' f) (ItemsParams.mk (Some q)))).
Proof.
  split.
  - unfold items, selectResults. simpl. f_equal.
    apply assemble_ext. by intros c (d & -> & _)%list_elem_of_fmap.
  - intros Hq%truthy_true. unfold items, selectResults. simpl.
    rewrite Hq. simpl. f_equal.
    apply assemble_ext. by intros c (r & -> & _)%list_elem_of_fmap.
Qed.

Lemma X16_what_a_request_reads_witness :
  run noResults (items (mkIndex (docs fooIndex) (doc fooIndex))
                   (ItemsParams.mk (Some (lit " install "))))
  = run noResults (items (mkIndex [] (doc fooIndex))
                     (ItemsParams.mk (Some (lit " install ")))).
Proof.
  apply (X16_what_a_request_reads (docs fooIndex) [] (doc fooIndex)
           (doc fooIndex) noResults noResults (lit " install ")).
  discriminate.
Defined.

(** * More on the index loader *)

Section loader.
Context {J : Type}.
Implicit Types (rt : Runtime J) (urlStr : jsstring) (url : URL)
  (e : JsError) (index : CorpusIndex).

Lemma fetchIndex_file rt urlStr url :
  new_URL rt urlStr = Returns url ->
  protocol url = lit "file:" ->
  fetchIndex rt urlStr
  = (text ← readFile rt (pathname url);
     data ← JSON_parse rt text;
     fromJSON rt data).
Proof.
  intros Hurl Hfile. unfold fetchIndex. rewrite Hurl. simpl.
  by rewrite bool_decide_eq_true_2.
Qed.

Lemma fetchIndex_other rt urlStr url :
  new_URL rt urlStr = Returns url ->
  protocol url <> lit "file:" ->
  fetchIndex rt urlStr
  = (resp ← fetch rt urlStr;
     if negb (ok resp) then
       Throws {| name := lit "Error";
                 message := fetchFailedMessage urlStr (status resp) |}
     else data ← json resp; fromJSON rt data).
Proof.
  intros Hurl Hfile. unfold fetchIndex. rewrite Hurl. simpl.
  by rewrite bool_decide_eq_false_2.
Qed.

Lemma fetchIndex_returns rt urlStr index :
  fetchIndex rt urlStr = Returns index ->
  exists url data,
    new_URL rt urlStr = Returns url /\
    fromJSON rt data = Returns index /\
    ((protocol url = lit "file:" /\
      exists text, readFile rt (pathname url) = Returns text /\
                   JSON_parse rt text = Returns data) \/
     (protocol url <> lit "file:" /\
      exists resp, fetch rt urlStr = Returns resp /\ ok resp = true /\
                   json resp = Returns data)).
Proof.
  unfold fetchIndex.
  destruct (new_URL rt urlStr) as [url|e] eqn:Hurl; simpl; [|done].
  case_bool_decide as Hfile.
  - destruct (readFile rt (pathname url)) as [text|e] eqn:Hread;
      simpl; [|done].
    destruct (JSON_parse rt text) as [data|e] eqn:Hparse; simpl; [|done].
    intros Hindex. exists url, data. split; [done|]. split; [done|].
    left. split; [done|]. by exists text.
  - destruct (fetch rt urlStr) as [resp|e] eqn:Hfetch; simpl; [|done].
    destruct (ok resp) eqn:Hok; simpl; [|done].
    destruct (json resp) as [data|e] eqn:Hjson; simpl; [|done].
    intros Hindex. exists url, data. split; [done|]. split; [done|].
    right. split; [done|]. by exists resp.
Qed.

Lemma fetchIndex_throws rt urlStr e :
  fetchIndex rt urlStr = Throws e ->
  new_URL rt urlStr = Throws e \/
  (exists path, readFile rt path = Throws e) \/
  (exists text, JSON_parse rt text = Throws e) \/
  fetch rt urlStr = Throws e \/
  (exists resp, fetch rt urlStr = Returns resp /\ ok resp = true /\
                json resp = Throws e) \/
  (exists data, fromJSON rt data = Throws e) \/
  (exists resp, fetch rt urlStr = Returns resp /\ ok resp = false /\
                e = {| name := lit "Error";
                       message := fetchFailedMessage urlStr (status resp) |}).
Proof.
  unfold fetchIndex.
  destruct (new_URL rt urlStr) as [url|e'] eqn:Hurl; simpl;
    [|intros [= ->]; by left].
  case_bool_decide as Hfile.
  - destruct (readFile rt (pathname url)) as [text|e'] eqn:Hread; simpl;
      [|intros [= ->]; right; left; by eexists].
    destruct (JSON_parse rt text) as [data|e'] eqn:Hparse; simpl;
      [|intros [= ->]; do 2 right; left; by eexists].
    intros Hthrow. do 5 right. left. by eexists.
  - destruct (fetch rt urlStr) as [resp|e'] eqn:Hfetch; simpl;
      [|intros [= ->]; do 3 right; by left].
    destruct (ok resp) eqn:Hok; simpl;
      [|intros [= <-]; do 6 right; by exists resp].
    destruct (json resp) as [data|e'] eqn:Hjson; simpl;
      [|intros [= ->]; do 4 right; left; by exists resp].
    intros Hthrow. do 5 right. left. by eexists.
Qed.
End loader.

(** X17. For a locator with the scheme [file:] the loader reads the
    file at the URL's path, parses it and hands the data to [fromJSON];
    it never calls [fetch]: with any other [fetch] the outcome is the
    same. *)
Theorem X17_file_never_fetches {J : Type} (rt : Runtime J)
    (urlStr : jsstring) (url : URL)
    (fetch' : jsstring -> outcome (Response J)) :
  new_URL rt urlStr = Returns url ->
  protocol url = lit "file:" ->
  fetchIndex rt urlStr
  = (text ← readFile rt (pathname url);
     data ← JSON_parse rt text;
     fromJSON rt data) /\
  fetchIndex
    (mkRuntime (new_URL rt) (readFile rt) (JSON_parse rt) fetch' (fromJSON rt))
    urlStr
  = fetchIndex rt urlStr.
Proof.
  intros Hurl Hfile. split; [by apply fetchIndex_file|].
  rewrite (fetchIndex_file rt urlStr url) by done.
  by rewrite (fetchIndex_file _ urlStr url).
Qed.

Lemma X17_file_never_fetches_witness :
  fetchIndex fileRuntime fileLocator
  = (text ← readFile fileRuntime (lit "/srv/docs/index.json");
     data ← JSON_parse fileRuntime text;
     fromJSON fileRuntime data) /\
  fetchIndex
    (mkRuntime (new_URL fileRuntime) (readFile fileRuntime)
       (JSON_parse fileRuntime)
       (fun _ => Returns (mkResponse true 200 (Returns ())))
       (fromJSON fileRuntime))
    fileLocator
  = fetchIndex fileRuntime fileLocator.
Proof.
  apply (X17_file_never_fetches fileRuntime fileLocator
           (mkURL (lit "file:") (lit "/srv/docs/index.json"))).
  - reflexivity.
  - reflexivity.
Defined.

(** X18. For a locator with any other scheme the loader never reads a
    file and never calls [JSON.parse]: with any other [readFile] and
    [JSON.parse] the outcome is the same. *)
Theorem X18_fetch_never_reads_files {J : Type} (rt : Runtime J)
    (urlStr : jsstring) (url : URL)
    (readFile' : jsstring -> outcome jsstring)
    (JSON_parse' : jsstring -> outcome J) :
  new_URL rt urlStr = Returns url ->
  protocol url <> lit "file:" ->
  fetchIndex
    (mkRuntime (new_URL rt) readFile' JSON_parse' (fetch rt) (fromJSON rt))
    urlStr
  = fetchIndex rt urlStr.
Proof.
  intros Hurl Hfile.
  rewrite (fetchIndex_other rt urlStr url) by done.
  by rewrite (fetchIndex_other _ urlStr url).
Qed.

Lemma X18_fetch_never_reads_files_witness :
  fetchIndex
    (mkRuntime (new_URL dataRuntime) (fun _ => Returns (lit "{}"))
       (fun _ => Throws (mkError (lit "SyntaxError") (lit "bad")))
       (fetch dataRuntime) (fromJSON dataRuntime))
    dataLocator
  = fetchIndex dataRuntime dataLocator.
Proof.
  apply (X18_fetch_never_reads_files dataRuntime dataLocator dataURL).
  - reflexivity.
  - discriminate.
Defined.

(** X19. An index the loader returns is one that [fromJSON] returned,
    for data parsed from the file of a [file:] locator, or from the body
    of a response that was a success to the fetch of the locator. *)
Theorem X19_index_comes_from_fromJSON {J : Type} (rt : Runtime J)
    (urlStr : jsstring) (index : CorpusIndex) :
  fetchIndex rt urlStr = Returns index ->
  exists url data,
    new_URL rt urlStr = Returns url /\
    fromJSON rt data = Returns index /\
    ((protocol url = lit "file:" /\
      exists text, readFile rt (pathname url) = Returns text /\
                   JSON_parse rt text = Returns data) \/
     (protocol url <> lit "file:" /\
      exists resp, fetch rt urlStr = Returns resp /\ ok resp = true /\
                   json resp = Returns data)).
Proof. apply fetchIndex_returns. Qed.

Lemma X19_index_comes_from_fromJSON_witness :
  exists url data,
    new_URL fileRuntime fileLocator = Returns url /\
    fromJSON fileRuntime data = Returns emptyIndex /\
    ((protocol url = lit "file:" /\
      exists text, readFile fileRuntime (pathname url) = Returns text /\
                   JSON_parse fileRuntime text = Returns data) \/
     (protocol url <> lit "file:" /\
      exists resp, fetch fileRuntime fileLocator = Returns resp /\
                   ok resp = true /\ json resp = Returns data)).
Proof.
  apply (X19_index_comes_from_fromJSON fileRuntime fileLocator emptyIndex).
  reflexivity.
Defined.

(** X20. An error of the loader is the error of one of the calls it
    makes: of the [URL] constructor, [readFile], [JSON.parse], [fetch],
    the response's [json] or [fromJSON]; or it is the error of line 91
    for a response that was not a success. *)
Theorem X20_errors_come_from_calls {J : Type} (rt : Runtime J)
    (urlStr : jsstring) (e : JsError) :
  fetchIndex rt urlStr = Throws e ->
  new_URL rt urlStr = Throws e \/
  (exists path, readFile rt path = Throws e) \/
  (exists text, JSON_parse rt text = Throws e) \/
  fetch rt urlStr = Throws e \/
  (exists resp, fetch rt urlStr = Returns resp /\ ok resp = true /\
                json resp = Throws e) \/
  (exists data, fromJSON rt data = Throws e) \/
  (exists resp, fetch rt urlStr = Returns resp /\ ok resp = false /\
                e = {| name := lit "Error";
                       message := fetchFailedMessage urlStr (status resp) |}).
Proof. apply fetchIndex_throws. Qed.

Lemma X20_errors_come_from_calls_witness :
  new_URL dataRuntime (lit "no scheme") = Throws (typeError (lit "Invalid URL")) \/
  (exists path, readFile dataRuntime path = Throws (typeError (lit "Invalid URL"))) \/
  (exists text, JSON_parse dataRuntime text = Throws (typeError (lit "Invalid URL"))) \/
  fetch dataRuntime (lit "no scheme") = Throws (typeError (lit "Invalid URL")) \/
  (exists resp, fetch dataRuntime (lit "no scheme") = Returns resp /\
                ok resp = true /\
                json resp = Throws (typeError (lit "Invalid URL"))) \/
  (exists data, fromJSON dataRuntime data = Throws (typeError (lit "Invalid URL"))) \/
  (exists resp, fetch dataRuntime (lit "no scheme") = Returns resp /\
                ok resp = false /\
                typeError (lit "Invalid URL")
                = {| name := lit "Error";
                     message := fetchFailedMessage (lit "no scheme") (status resp) |}).
Proof.
  apply (X20_errors_come_from_calls dataRuntime (lit "no scheme")).
  reflexivity.
Defined.

(** * The fields passed on, and the site's name *)

Section passed_on.
Implicit Types (d : IndexedDoc.t) (r : Item.t) (s p t : jsstring)
  (items : list Item.t).

Lemma assemble_passed_on (client : CorpusIndex) results :
  (fun r => (Item.url r, Item.content (Item.ai r))) <$> assemble client results
  = (fun d => (docUrl d, docText d))
      <$> firstOccurrences (resolve client <$> results).
Proof.
  pose proof (otherFields_assemble client results) as H.
  apply (f_equal (fmap (fun x : option jsstring * Item.UI * Item.AI =>
                          (x.1.1, Item.content x.2)))) in H.
  by rewrite <- !list_fmap_compose in H.
Qed.

Lemma title_trimmed s r :
  Item.title (trimmed s r)
  = if decide (len s + 10 <= len (Item.title r))
    then dropEnd (length s) (Item.title r) else Item.title r.
Proof. unfold trimmed. by case_decide. Qed.

Lemma trimCommonSuffix_site_name items (parts : list jsstring) s :
  (2 <= length items)%nat ->
  Item.title <$> items = (fun p => p ++ s) <$> parts ->
  longestCommonSuffix parts = [] ->
  Forall (fun p => 10 <= len p) parts ->
  Item.title <$> trimCommonSuffix items = parts.
Proof.
  intros Hlen Htitles Hparts Hten.
  destruct items as [|r1 [|r2 rest]]; [simpl in Hlen; lia..|].
  rewrite trimCommonSuffix_many.
  set (items := r1 :: r2 :: rest) in *.
  assert (Hne : parts <> []).
  { intros ->. discriminate Htitles. }
  assert (HS : longestCommonSuffix (Item.title <$> items) = s).
  { by rewrite Htitles, longestCommonSuffix_app, Hparts. }
  rewrite HS.
  trans ((fun t => if decide (len s + 10 <= len t)
                   then dropEnd (length s) t else t)
           <$> (Item.title <$> items)).
  { rewrite <- !list_fmap_compose. apply list_fmap_ext.
    intros _ r _. apply title_trimmed. }
  rewrite Htitles, <- list_fmap_compose.
  rewrite <- (list_fmap_id parts) at 2.
  apply list_fmap_ext. intros _ p Hp%list_elem_of_lookup_2. simpl.
  rewrite Forall_forall in Hten. specialize (Hten p Hp).
  rewrite decide_True by (rewrite len_app; lia).
  apply dropEnd_app.
Qed.
End passed_on.

(** X21. Every item returned carries the URL of its document and the
    document's text content as it is, whatever its length; both are
    absent when the document has none. *)
Theorem X21_url_and_content (client : CorpusIndex)
    (results : list candidate) :
  (fun r => (Item.url r, Item.content (Item.ai r))) <$> assemble client results
  = (fun d => (docUrl d, docText d))
      <$> firstOccurrences (resolve client <$> results).
Proof. apply assemble_passed_on. Qed.

(** X22. When two or more titles are made of a part of their own of at
    least 10 characters followed by one same string, and the parts have
    no common suffix, the trimming step leaves exactly the parts. *)
Theorem X22_site_name_removed (items : list Item.t)
    (parts : list jsstring) (s : jsstring) :
  (2 <= length items)%nat ->
  Item.title <$> items = (fun p => p ++ s) <$> parts ->
  longestCommonSuffix parts = [] ->
  Forall (fun p => 10 <= len p) parts ->
  Item.title <$> trimCommonSuffix items = parts.
Proof. apply trimCommonSuffix_site_name. Qed.

Lemma X22_site_name_removed_witness :
  Item.title
    <$> trimCommonSuffix [plainItem (lit "Installation - My Docs");
                          plainItem (lit "Configuring - My Docs")]
  = [lit "Installation"; lit "Configuring"].
Proof.
  apply (X22_site_name_removed _ _ (lit " - My Docs")).
  - simpl. lia.
  - reflexivity.
  - reflexivity.
  - repeat constructor; by vm_compute.
Defined.
